(** * graphql-loot: the in-memory store and its resolvers

    A shallow embedding of [_db.js] (the three seeded arrays) and of the
    resolver map of [index.js] (Query, Game, Author, Review, Mutation),
    followed by the properties of the resolution layer.

    The module-level object [db] is threaded explicitly: a resolver that
    only reads takes the store, a mutation returns the new store together
    with the value handed back to the client.  JavaScript's [undefined]
    result of [Array.prototype.find] is [None]. *)

From Stdlib Require Import List String Ascii ZArith Lia Bool DecimalString.
Import ListNotations.

Local Open Scope string_scope.
Local Open Scope list_scope.

(** ** Data model ([_db.js], shapes fixed by [schema.js]) *)

Module Store.

Record Game : Type := mkGame {
  Game_id : string;
  title : string;
  platform : list string
}.

Record Author : Type := mkAuthor {
  Author_id : string;
  name : string;
  verified : bool
}.

Record Review : Type := mkReview {
  Review_id : string;
  rating : Z;
  content : string;
  author_id : string;
  game_id : string
}.

(** Every record of the three collections carries an [id] property; the
    resolvers read it as [x.id] whatever the collection. *)
Class HasId (A : Type) : Type := id : A -> string.

#[export] Instance Game_HasId : HasId Game := Game_id.
#[export] Instance Author_HasId : HasId Author := Author_id.
#[export] Instance Review_HasId : HasId Review := Review_id.

(** [input AddGameInput { title: String!  platform: [String!]! }] *)
Record AddGameInput : Type := mkAddGameInput {
  input_title : string;
  input_platform : list string
}.

(** [input EditGameInput { title: String  platform: [String!] }]:
    a property that the edits object does not carry is [None].  The fields
    of a [Game] are typed by the schema ([String!], [[String!]!]), so a
    property carried with the value [null] has no counterpart here. *)
Record EditGameInput : Type := mkEditGameInput {
  edits_title : option string;
  edits_platform : option (list string)
}.

(** The default export of [_db.js]: [{ games, authors, reviews }]. *)
Record Db : Type := mkDb {
  games : list Game;
  authors : list Author;
  reviews : list Review
}.

(** The assignment [db.games = gs]. *)
Definition set_games (d : Db) (gs : list Game) : Db :=
  {| games := gs; authors := authors d; reviews := reviews d |}.

Definition seed_games : list Game :=
  [ mkGame "1" "Legend of Code" ["PC"; "Switch"];
    mkGame "2" "Bug Hunter 3000" ["Xbox"; "PlayStation"];
    mkGame "3" "Terminal Quest" ["PC"] ].

Definition seed_authors : list Author :=
  [ mkAuthor "201" "Alice Devlin" true;
    mkAuthor "202" "Bob Coder" false;
    mkAuthor "203" "Charlie Script" true ].

Definition seed_reviews : list Review :=
  [ mkReview "101" 5 "Absolutely loved the gameplay and story!" "201" "1";
    mkReview "102" 3 "Fun mechanics but gets repetitive after a while." "202" "2";
    mkReview "103" 4 "Solid experience, great graphics and soundtrack." "203" "3";
    mkReview "104" 2 "Too many bugs, felt unfinished." "202" "1" ].

Definition db : Db :=
  {| games := seed_games; authors := seed_authors; reviews := seed_reviews |}.

End Store.

Import Store.

(** ** Numbers

    [Math.floor(Math.random() * 10000).toString()] works on IEEE 754
    binary64 values.  Only non-negative finite values occur; such a value
    is [mant * 2 ^ expo] with [0 <= mant < 2 ^ 53] and [-1074 <= expo]. *)

Module Number.

Record double : Type := mkDouble {
  mant : Z;
  expo : Z
}.

Definition finite_nonneg (x : double) : bool :=
  (0 <=? mant x)%Z && (mant x <? 2 ^ 53)%Z &&
  (-1074 <=? expo x)%Z && (expo x <=? 971)%Z.

(** [x < 1], for a non-negative finite [x]. *)
Definition below_one (x : double) : bool :=
  (mant x =? 0)%Z || ((expo x <? 0)%Z && (mant x <? 2 ^ (- expo x))%Z).

(** Rounding of the exact value [P * 2 ^ E] ([0 <= P]) to the nearest
    binary64 value, ties to even: [s] low bits are shifted out so that
    53 significant bits remain and the exponent stays at or above -1074.
    Overflow to Infinity is not modelled (products here stay below 10000). *)
Definition round (P E : Z) : double :=
  let s := Z.max 0 (Z.max (Z.log2 P - 52) (-1074 - E)) in
  if (s =? 0)%Z then {| mant := P; expo := E |}
  else
    let q := (P / 2 ^ s)%Z in
    let rem := (P mod 2 ^ s)%Z in
    let half := (2 ^ (s - 1))%Z in
    let up := (half <? rem)%Z || ((rem =? half)%Z && Z.odd q) in
    {| mant := if up then (q + 1)%Z else q; expo := (E + s)%Z |}.

(** The operator [*] on two non-negative finite doubles. *)
Definition mul (x y : double) : double :=
  round (mant x * mant y) (expo x + expo y).

(** A numeric literal with an integer value below [2 ^ 53]. *)
Definition literal (n : Z) : double := {| mant := n; expo := 0 |}.

(** [Number.prototype.toString] at an integer-valued Number [n] with
    [|n| < 10 ^ 21]: the decimal digits, a leading minus sign when
    negative, no leading zero. *)
Definition toString (n : Z) : string :=
  NilZero.string_of_int (Z.to_int n).

End Number.

Module Math.

(** [Math.random()] draws its result from outside the program; the draw
    is an argument of the resolver that calls it.  ECMAScript promises a
    Number with positive sign, at least [+0] and strictly below [1]. *)
Definition random_range (x : Number.double) : bool :=
  Number.finite_nonneg x && Number.below_one x.

(** [Math.floor] of a non-negative finite double, as the integer it is. *)
Definition floor (x : Number.double) : Z :=
  if (0 <=? Number.expo x)%Z
  then (Number.mant x * 2 ^ Number.expo x)%Z
  else (Number.mant x / 2 ^ (- Number.expo x))%Z.

End Math.

(** ** Query resolvers *)

Module Query.

Definition games (d : Db) : list Game := Store.games d.

Definition reviews (d : Db) : list Review := Store.reviews d.

Definition authors (d : Db) : list Author := Store.authors d.

Definition review (d : Db) (args_id : string) : option Review :=
  find (fun review => id review =? args_id) (Store.reviews d).

Definition game (d : Db) (args_id : string) : option Game :=
  find (fun game => id game =? args_id) (Store.games d).

Definition author (d : Db) (args_id : string) : option Author :=
  find (fun author => id author =? args_id) (Store.authors d).

End Query.

(** ** Nested type resolvers *)

Module Game.

Definition reviews (d : Db) (parent : Game) : list Review :=
  filter (fun review => game_id review =? id parent) (Store.reviews d).

End Game.

Module Author.

Definition reviews (d : Db) (parent : Author) : list Review :=
  filter (fun review => author_id review =? id parent) (Store.reviews d).

End Author.

Module Review.

Definition author (d : Db) (parent : Review) : option Author :=
  find (fun author => id author =? author_id parent) (Store.authors d).

Definition game (d : Db) (parent : Review) : option Game :=
  find (fun game => id game =? game_id parent) (Store.games d).

End Review.

(** ** Mutation resolvers

    Each returns the store after the call and the resolver's result. *)

Module Mutation.

Definition deleteGame (d : Db) (args_id : string) : Db * list Game :=
  let d' := set_games d
              (filter (fun game => negb (id game =? args_id)) (Store.games d)) in
  (d', Store.games d').

(** [{ ...args.game, id: Math.floor(Math.random() * 10000).toString() }];
    [random] is the value that the call of [Math.random()] produced.
    [push] appends to the array held by [db.games]. *)
Definition addGame (random : Number.double) (d : Db) (args_game : AddGameInput)
  : Db * Game :=
  let game :=
    {| Game_id := Number.toString
                    (Math.floor (Number.mul random (Number.literal 10000)));
       title := input_title args_game;
       platform := input_platform args_game |} in
  (set_games d (Store.games d ++ [game]), game).

(** The object spread [{ ...game, ...args.edits }]: a property of the
    edits replaces the game's, every other property is the game's. *)
Definition spread (game : Game) (edits : EditGameInput) : Game :=
  {| Game_id := Game_id game;
     title := match edits_title edits with
              | Some t => t
              | None => title game
              end;
     platform := match edits_platform edits with
                 | Some p => p
                 | None => platform game
                 end |}.

Definition updateGame (d : Db) (args_id : string) (args_edits : EditGameInput)
  : Db * option Game :=
  let d' := set_games d
              (map (fun game =>
                      if id game =? args_id then spread game args_edits
                      else game)
                   (Store.games d)) in
  (d', find (fun game => id game =? args_id) (Store.games d')).

End Mutation.

(** * Vocabulary of the statements *)

(** ** Order and first match *)

(** [l1] is obtained from [l2] by dropping elements, keeping the order. *)
Inductive Subseq {A : Type} : list A -> list A -> Prop :=
| Subseq_nil : Subseq [] []
| Subseq_skip (x : A) (l1 l2 : list A) : Subseq l1 l2 -> Subseq l1 (x :: l2)
| Subseq_take (x : A) (l1 l2 : list A) : Subseq l1 l2 -> Subseq (x :: l1) (x :: l2).

(** The result of a lookup by identifier in a collection: the first record,
    in insertion order, that carries the identifier, or nothing when no
    record carries it. *)
Definition first_with_id {A : Type} `{HasId A}
  (l : list A) (i : string) (r : option A) : Prop :=
  match r with
  | Some x =>
      exists l1 l2, l = l1 ++ x :: l2 /\ id x = i /\
                    forall y, In y l1 -> id y <> i
  | None => forall y, In y l -> id y <> i
  end.

(** ** Partial update *)

(** The callback that [updateGame] hands to [map]. *)
Definition edit_one (args_id : string) (edits : EditGameInput) (game : Game)
  : Game :=
  if id game =? args_id then Mutation.spread game edits else game.

(** A field-level merge of one record, stated field by field: the
    identifier stays, a field present in the edits takes the edits' value,
    a field absent from the edits keeps its value. *)
Definition merged (edits : EditGameInput) (before after : Game) : Prop :=
  id after = id before /\
  (forall t, edits_title edits = Some t -> title after = t) /\
  (edits_title edits = None -> title after = title before) /\
  (forall p, edits_platform edits = Some p -> platform after = p) /\
  (edits_platform edits = None -> platform after = platform before).

(** ** Decimal strings and generated identifiers *)

(** The value that a string of decimal digits denotes; [None] for the
    empty string and for a string with another character. *)
Definition digit_value (c : ascii) : option Z :=
  let n := Z.of_nat (nat_of_ascii c) in
  if (48 <=? n)%Z && (n <=? 57)%Z then Some (n - 48)%Z else None.

Fixpoint decimal_value_from (acc : Z) (s : string) : option Z :=
  match s with
  | EmptyString => Some acc
  | String c s' =>
      match digit_value c with
      | Some v => decimal_value_from (10 * acc + v)%Z s'
      | None => None
      end
  end.

Definition decimal_value (s : string) : option Z :=
  match s with
  | EmptyString => None
  | _ => decimal_value_from 0 s
  end.

(** The integers that [Math.floor(Math.random() * 10000)] can be. *)
Definition floor_values : list Z := map Z.of_nat (seq 0 (Z.to_nat 10000)).

(** The strings that [addGame] can generate as an identifier. *)
Definition id_universe : list string := map Number.toString floor_values.

(** [Number.toString n] has one to four characters and denotes [n]. *)
Definition short_decimal (n : Z) : bool :=
  let s := Number.toString n in
  (1 <=? String.length s)%nat && (String.length s <=? 4)%nat &&
  match decimal_value s with
  | Some v => (v =? n)%Z
  | None => false
  end.

(** One call of [addGame]: the draw of [Math.random()], the store and the
    input; and the identifier that the call generates. *)
Definition addGame_call : Type := (Number.double * Db * AddGameInput)%type.

Definition generated_id (c : addGame_call) : string :=
  let '(random, d, args_game) := c in
  id (snd (Mutation.addGame random d args_game)).

(** ** Concrete records, draws and stores *)

(** The two seed reviews of the game "1". *)
Definition review_101 : Review :=
  mkReview "101" 5 "Absolutely loved the gameplay and story!" "201" "1".

Definition review_104 : Review :=
  mkReview "104" 2 "Too many bugs, felt unfinished." "202" "1".

(** The draw 2^-13 (about 0.000122), for which [addGame] generates "1". *)
Definition draw_1 : Number.double := Number.mkDouble 1 (-13).

Definition elden_ring : AddGameInput :=
  mkAddGameInput "Elden Ring" ["PC"; "PlayStation"; "Xbox"].

(** The seed data after [addGame] generated the identifier "1" again. *)
Definition db_twice_1 : Db := fst (Mutation.addGame draw_1 db elden_ring).

(** ** Sequences of mutation calls *)

(** One call of a mutation resolver, with its arguments; for [addGame]
    also the value that its call of [Math.random()] produced. *)
Inductive mutation_call : Type :=
| call_addGame (random : Number.double) (args_game : AddGameInput)
| call_updateGame (args_id : string) (args_edits : EditGameInput)
| call_deleteGame (args_id : string).

(** The store after one call, the resolver's result dropped. *)
Definition store_after (d : Db) (c : mutation_call) : Db :=
  match c with
  | call_addGame random args_game => fst (Mutation.addGame random d args_game)
  | call_updateGame args_id args_edits =>
      fst (Mutation.updateGame d args_id args_edits)
  | call_deleteGame args_id => fst (Mutation.deleteGame d args_id)
  end.

(** The store after the calls of [cs], made one after the other. *)
Definition store_after_all (cs : list mutation_call) (d : Db) : Db :=
  fold_left store_after cs d.

(** The draws of the [addGame] calls are results of [Math.random()]. *)
Definition draws_in_range (cs : list mutation_call) : Prop :=
  Forall (fun c => match c with
                   | call_addGame random _ => Math.random_range random = true
                   | _ => True
                   end) cs.

Definition is_deleteGame (c : mutation_call) : bool :=
  match c with
  | call_deleteGame _ => true
  | _ => false
  end.

Definition is_addGame (c : mutation_call) : bool :=
  match c with
  | call_addGame _ _ => true
  | _ => false
  end.

(** The spread [{ ...first, ...second }] of two edits objects. *)
Definition edits_then (first second : EditGameInput) : EditGameInput :=
  {| edits_title := match edits_title second with
                    | Some t => Some t
                    | None => edits_title first
                    end;
     edits_platform := match edits_platform second with
                       | Some p => Some p
                       | None => edits_platform first
                       end |}.

(** A double in [0, 1) close to [(n + 1/2) / 10000]: a multiple of
    [2 ^ -39], so that its product with 10000 needs no rounding. *)
Definition draw_for (n : Z) : Number.double :=
  Number.mkDouble ((2 * n + 1) * 2 ^ 39 / 20000) (-39).

(** * Properties *)

(** ** The number model on known products

    [0.5 * 10000] is [5000]; [0.1 * 10000] rounds to [1000] exactly; the
    largest double below [1] gives [9999.999999999998], floor [9999]; the
    smallest positive double gives floor [0]. *)

Example floor_half :
  Math.floor (Number.mul (Number.mkDouble 1 (-1)) (Number.literal 10000))
  = 5000%Z.
Proof. reflexivity. Qed.

Example mul_one_tenth :
  Number.mul (Number.mkDouble 3602879701896397 (-55)) (Number.literal 10000)
  = Number.mkDouble 8796093022208000 (-43).
Proof. reflexivity. Qed.

Example floor_largest_below_one :
  Number.mul (Number.mkDouble 9007199254740991 (-53)) (Number.literal 10000)
  = Number.mkDouble 5497558138879999 (-39) /\
  Math.floor (Number.mkDouble 5497558138879999 (-39)) = 9999%Z.
Proof. split; reflexivity. Qed.

Example floor_smallest_positive :
  Math.floor (Number.mul (Number.mkDouble 1 (-1074)) (Number.literal 10000))
  = 0%Z.
Proof. vm_compute. reflexivity. Qed.

(** ** Lists: first match and order-preserving selection *)

Section Lists.

Context {A : Type}.

Variable f : A -> bool.

Lemma filter_Subseq (l : list A) : Subseq (filter f l) l.
Proof.
  induction l as [|x l IH]; simpl.
  - constructor.
  - destruct (f x); now constructor.
Qed.

Lemma filter_Subseq_max (l' l : list A) :
  Subseq l' l -> Forall (fun x => f x = true) l' -> Subseq l' (filter f l).
Proof.
  induction 1 as [|x l1 l2 _ IH|x l1 l2 _ IH]; intros Hall; simpl.
  - constructor.
  - destruct (f x); [apply Subseq_skip|]; auto.
  - inversion Hall as [|? ? Hx Hrest]; subst.
    rewrite Hx. apply Subseq_take; auto.
Qed.

Lemma filter_nil_iff (l : list A) :
  filter f l = [] <-> forall x, In x l -> f x = false.
Proof.
  induction l as [|x l IH]; simpl.
  - split; [intros _ y []|reflexivity].
  - destruct (f x) eqn:Hx; split.
    + discriminate.
    + intros H. specialize (H x (or_introl eq_refl)). congruence.
    + intros H y [<-|Hy]; [assumption|]. now apply IH.
    + intros H. apply IH. intros y Hy. apply H. now right.
Qed.

Lemma filter_id (l : list A) :
  (forall x, In x l -> f x = true) -> filter f l = l.
Proof.
  induction l as [|x l IH]; simpl; intros H; [reflexivity|].
  rewrite (H x (or_introl eq_refl)). f_equal. apply IH. intros y Hy.
  apply H. now right.
Qed.

Lemma find_Some_first (l : list A) (x : A) :
  find f l = Some x <->
  exists l1 l2, l = l1 ++ x :: l2 /\ f x = true /\
                forall y, In y l1 -> f y = false.
Proof.
  induction l as [|a l IH]; simpl.
  - split; [discriminate|].
    intros (l1 & l2 & E & _). destruct l1; discriminate.
  - destruct (f a) eqn:Ha; split.
    + intros [= ->]. exists [], l. repeat split; auto. intros y [].
    + intros (l1 & l2 & E & Hx & Hl1). destruct l1 as [|b l1]; simpl in E.
      * congruence.
      * injection E as <- ->.
        specialize (Hl1 a (or_introl eq_refl)). congruence.
    + intros H. apply IH in H as (l1 & l2 & -> & Hx & Hl1).
      exists (a :: l1), l2. repeat split; auto.
      intros y [<-|Hy]; auto.
    + intros (l1 & l2 & E & Hx & Hl1). apply IH.
      destruct l1 as [|b l1]; simpl in E.
      * congruence.
      * injection E as <- ->. exists l1, l2. repeat split; auto.
        intros y Hy. apply Hl1. now right.
Qed.

Lemma find_None_iff (l : list A) :
  find f l = None <-> forall y, In y l -> f y = false.
Proof.
  induction l as [|a l IH]; simpl.
  - split; [intros _ y []|reflexivity].
  - destruct (f a) eqn:Ha; split.
    + discriminate.
    + intros H. specialize (H a (or_introl eq_refl)). congruence.
    + intros H y [<-|Hy]; [assumption|]. now apply IH.
    + intros H. apply IH. intros y Hy. apply H. now right.
Qed.

End Lists.

Lemma find_first_with_id {A : Type} `{HasId A} (l : list A) (i : string) :
  first_with_id l i (find (fun x => id x =? i) l).
Proof.
  unfold first_with_id.
  destruct (find _ l) as [x|] eqn:E.
  - apply find_Some_first in E as (l1 & l2 & -> & Hx & Hl1).
    exists l1, l2. repeat split.
    + now apply String.eqb_eq.
    + intros y Hy. apply String.eqb_neq. auto.
  - intros y Hy. apply String.eqb_neq.
    revert y Hy. now apply find_None_iff.
Qed.

(** Only the result described by [first_with_id] is possible. *)
Lemma first_with_id_unique {A : Type} `{HasId A}
  (l : list A) (i : string) (r1 r2 : option A) :
  first_with_id l i r1 -> first_with_id l i r2 -> r1 = r2.
Proof.
  intros H1 H2.
  assert (K : forall r, first_with_id l i r -> r = find (fun x => id x =? i) l).
  { intros [x|] Hr; simpl in Hr; symmetry.
    - destruct Hr as (l1 & l2 & -> & Hx & Hl1).
      apply find_Some_first. exists l1, l2. repeat split.
      + now apply String.eqb_eq.
      + intros y Hy. apply String.eqb_neq. auto.
    - apply find_None_iff. intros y Hy. apply String.eqb_neq. auto. }
  rewrite (K _ H1), (K _ H2). reflexivity.
Qed.

(** ** The store under the mutations *)

Lemma set_games_same (d : Db) : set_games d (Store.games d) = d.
Proof. now destruct d. Qed.

Lemma id_spread (g : Game) (edits : EditGameInput) :
  id (Mutation.spread g edits) = id g.
Proof. reflexivity. Qed.

Lemma spread_spread (g : Game) (edits : EditGameInput) :
  Mutation.spread (Mutation.spread g edits) edits = Mutation.spread g edits.
Proof.
  unfold Mutation.spread; simpl.
  destruct (edits_title edits), (edits_platform edits); reflexivity.
Qed.

Lemma updateGame_unfold (d : Db) (i : string) (edits : EditGameInput) :
  Mutation.updateGame d i edits =
  (set_games d (map (edit_one i edits) (Store.games d)),
   find (fun game => id game =? i) (map (edit_one i edits) (Store.games d))).
Proof. reflexivity. Qed.

Lemma id_edit_one (i : string) (edits : EditGameInput) (g : Game) :
  id (edit_one i edits g) = id g.
Proof. unfold edit_one. now destruct (id g =? i). Qed.

Lemma edit_one_idem (i : string) (edits : EditGameInput) (g : Game) :
  edit_one i edits (edit_one i edits g) = edit_one i edits g.
Proof.
  unfold edit_one. destruct (id g =? i) eqn:E.
  - change (id (Mutation.spread g edits)) with (id g). rewrite E.
    apply spread_spread.
  - now rewrite E.
Qed.

Lemma edit_one_other (i : string) (edits : EditGameInput) (g : Game) :
  id g <> i -> edit_one i edits g = g.
Proof. unfold edit_one. intros H. apply String.eqb_neq in H. now rewrite H. Qed.

Lemma map_edit_one_absent (i : string) (edits : EditGameInput) (l : list Game) :
  (forall g, In g l -> id g <> i) -> map (edit_one i edits) l = l.
Proof.
  induction l as [|g l IH]; simpl; intros H; [reflexivity|].
  rewrite edit_one_other by (apply H; now left).
  f_equal. apply IH. intros y Hy. apply H. now right.
Qed.

Lemma find_map_edit_one (i : string) (edits : EditGameInput) (l : list Game) :
  find (fun game => id game =? i) (map (edit_one i edits) l) =
  option_map (fun g => Mutation.spread g edits)
             (find (fun game => id game =? i) l).
Proof.
  induction l as [|g l IH]; simpl; [reflexivity|].
  rewrite id_edit_one. destruct (id g =? i) eqn:E; [|assumption].
  unfold edit_one. now rewrite E.
Qed.

Lemma spread_merged (edits : EditGameInput) (g : Game) :
  merged edits g (Mutation.spread g edits).
Proof.
  unfold merged, Mutation.spread; simpl.
  destruct (edits_title edits), (edits_platform edits);
    repeat split; congruence.
Qed.

Lemma filter_filter_same {A : Type} (f : A -> bool) (l : list A) :
  filter f (filter f l) = filter f l.
Proof.
  apply filter_id. intros x Hx. now apply filter_In in Hx.
Qed.

Lemma find_app_last {A : Type} (f : A -> bool) (l : list A) (x : A) :
  f x = true ->
  find f (l ++ [x]) = match find f l with Some y => Some y | None => Some x end.
Proof.
  intros Hx. induction l as [|a l IH]; simpl.
  - now rewrite Hx.
  - now destruct (f a).
Qed.

Lemma filter_length_count {A : Type} (f : A -> bool) (l : list A) :
  List.length (filter (fun x => negb (f x)) l) + List.length (filter f l)
  = List.length l.
Proof.
  induction l as [|a l IH]; simpl; [reflexivity|].
  destruct (f a); simpl; lia.
Qed.

(** ** Claims about reads *)

(** C1. [Game.reviews] returns exactly the reviews whose [game_id] is the
    game's [id]: the same members, in the order of the reviews collection
    and as often as they occur there; the result is a list, empty when no
    review references the game; on the seed data the game with id "1" has
    the reviews "101" then "104". *)
Theorem Game_reviews_exact (d : Db) (g : Game) :
  (forall r, In r (Game.reviews d g) <->
             In r (Query.reviews d) /\ game_id r = id g) /\
  Subseq (Game.reviews d g) (Query.reviews d) /\
  (forall l, Subseq l (Query.reviews d) ->
             Forall (fun r => game_id r = id g) l ->
             Subseq l (Game.reviews d g)) /\
  ((forall r, In r (Query.reviews d) -> game_id r <> id g) ->
   Game.reviews d g = []) /\
  (id g = "1" ->
   Game.reviews db g = [review_101; review_104] /\
   map id (Game.reviews db g) = ["101"; "104"]).
Proof.
  unfold Game.reviews, Query.reviews.
  split; [|split; [|split; [|split]]].
  - intros r. rewrite filter_In, String.eqb_eq. reflexivity.
  - apply filter_Subseq.
  - intros l Hsub Hall. apply filter_Subseq_max; [assumption|].
    eapply Forall_impl; [|exact Hall]. intros r Hr. now apply String.eqb_eq.
  - intros H. apply filter_nil_iff. intros r Hr. apply String.eqb_neq. auto.
  - intros ->. split; reflexivity.
Qed.

Lemma Game_reviews_exact_witness :
  Game.reviews db (mkGame "7" "Unreviewed" []) = [] /\
  Game.reviews db (mkGame "1" "Legend of Code" ["PC"; "Switch"])
  = [review_101; review_104].
Proof.
  split.
  - apply (Game_reviews_exact db (mkGame "7" "Unreviewed" [])).
    intros r Hr. simpl in Hr.
    repeat (destruct Hr as [<-|Hr]; [discriminate|]). destruct Hr.
  - apply (Game_reviews_exact db (mkGame "1" "Legend of Code" ["PC"; "Switch"])).
    reflexivity.
Defined.

(** C5. [Query.game], [Query.author] and [Query.review] return the first
    record, in insertion order, whose [id] is the argument, and [None]
    when no record has it; no other answer fits that description. *)
Theorem Query_by_id_first_match (d : Db) (args_id : string) :
  first_with_id (Query.games d) args_id (Query.game d args_id) /\
  first_with_id (Query.authors d) args_id (Query.author d args_id) /\
  first_with_id (Query.reviews d) args_id (Query.review d args_id) /\
  (forall r, first_with_id (Query.games d) args_id r ->
             r = Query.game d args_id) /\
  (forall r, first_with_id (Query.authors d) args_id r ->
             r = Query.author d args_id) /\
  (forall r, first_with_id (Query.reviews d) args_id r ->
             r = Query.review d args_id).
Proof.
  unfold Query.game, Query.author, Query.review,
    Query.games, Query.authors, Query.reviews.
  repeat split; try apply find_first_with_id;
    intros r Hr; eapply first_with_id_unique; eauto using find_first_with_id.
Qed.

Lemma Query_by_id_first_match_witness :
  first_with_id (Query.games db) "2"
    (Some (mkGame "2" "Bug Hunter 3000" ["Xbox"; "PlayStation"])) /\
  Some (mkGame "2" "Bug Hunter 3000" ["Xbox"; "PlayStation"])
  = Query.game db "2".
Proof.
  assert (H : first_with_id (Query.games db) "2"
                (Some (mkGame "2" "Bug Hunter 3000" ["Xbox"; "PlayStation"]))).
  { exists [mkGame "1" "Legend of Code" ["PC"; "Switch"]],
           [mkGame "3" "Terminal Quest" ["PC"]].
    split; [reflexivity|]. split; [reflexivity|].
    intros y [<-|[]]. discriminate. }
  split; [exact H|].
  apply (proj1 (proj2 (proj2 (proj2 (Query_by_id_first_match db "2"))))).
  exact H.
Defined.

(** ** Claims about [updateGame] *)

(** C3. When a game has the identifier, [updateGame] returns the first
    such game with exactly the fields of the edits replaced and the
    identifier kept; the collection keeps its length and its order, every
    game with the identifier is merged with the edits in place and every
    other game is the same record as before.  On the seed data,
    [updateGame("1", {title: "Remastered"})] returns
    [{id: "1", title: "Remastered", platform: ["PC", "Switch"]}]. *)
Theorem updateGame_merges_edits (d : Db) (args_id : string)
  (edits : EditGameInput) :
  (forall g, Query.game d args_id = Some g ->
     exists g',
       snd (Mutation.updateGame d args_id edits) = Some g' /\
       merged edits g g' /\
       id g' = args_id /\
       Query.game (fst (Mutation.updateGame d args_id edits)) args_id
       = Some g') /\
  List.length (Query.games (fst (Mutation.updateGame d args_id edits)))
  = List.length (Query.games d) /\
  (forall n x, nth_error (Query.games d) n = Some x ->
     exists x',
       nth_error (Query.games (fst (Mutation.updateGame d args_id edits))) n
       = Some x' /\
       (id x = args_id -> merged edits x x') /\
       (id x <> args_id -> x' = x)) /\
  snd (Mutation.updateGame db "1" (mkEditGameInput (Some "Remastered") None))
  = Some (mkGame "1" "Remastered" ["PC"; "Switch"]).
Proof.
  rewrite updateGame_unfold. unfold Query.game, Query.games. simpl.
  split; [|split; [|split]].
  - intros g Hg. exists (Mutation.spread g edits).
    rewrite find_map_edit_one, Hg. simpl.
    repeat split; try apply spread_merged.
    apply find_some in Hg as [_ Hg]. now apply String.eqb_eq.
  - apply length_map.
  - intros n x Hx. exists (edit_one args_id edits x). split.
    + rewrite nth_error_map, Hx. reflexivity.
    + unfold edit_one. split; intros H.
      * apply String.eqb_eq in H. rewrite H. apply spread_merged.
      * apply String.eqb_neq in H. now rewrite H.
  - reflexivity.
Qed.

Lemma updateGame_merges_edits_witness :
  exists g',
    snd (Mutation.updateGame db "2" (mkEditGameInput None (Some ["Switch"])))
    = Some g' /\
    merged (mkEditGameInput None (Some ["Switch"]))
           (mkGame "2" "Bug Hunter 3000" ["Xbox"; "PlayStation"]) g' /\
    id g' = "2" /\
    Query.game
      (fst (Mutation.updateGame db "2" (mkEditGameInput None (Some ["Switch"]))))
      "2" = Some g'.
Proof.
  apply (updateGame_merges_edits db "2" (mkEditGameInput None (Some ["Switch"]))).
  reflexivity.
Defined.

(** C8. A second identical [updateGame] changes nothing more: it returns
    the same record and leaves the same store as the first call did; a
    field that the edits do not carry still has, after both calls, the
    value it had before the first. *)
Theorem updateGame_idempotent (d : Db) (args_id : string)
  (edits : EditGameInput) :
  let once := Mutation.updateGame d args_id edits in
  let twice := Mutation.updateGame (fst once) args_id edits in
  twice = once /\
  (forall g g2, Query.game d args_id = Some g -> snd twice = Some g2 ->
     id g2 = id g /\
     (edits_title edits = None -> title g2 = title g) /\
     (edits_platform edits = None -> platform g2 = platform g)).
Proof.
  intros once twice.
  assert (E : twice = once).
  { unfold twice, once. rewrite !updateGame_unfold. simpl.
    rewrite map_map.
    rewrite (map_ext _ _ (edit_one_idem args_id edits)).
    destruct d; reflexivity. }
  split; [exact E|].
  intros g g2 Hg. rewrite E. unfold once. rewrite updateGame_unfold. simpl.
  unfold Query.game in Hg. rewrite find_map_edit_one, Hg. simpl.
  intros [= <-]. destruct (spread_merged edits g) as (H1 & _ & H2 & _ & H3).
  auto.
Qed.

Lemma updateGame_idempotent_witness :
  Query.game db "1" = Some (mkGame "1" "Legend of Code" ["PC"; "Switch"]) /\
  snd (Mutation.updateGame
         (fst (Mutation.updateGame db "1" (mkEditGameInput (Some "New") None)))
         "1" (mkEditGameInput (Some "New") None))
  = Some (mkGame "1" "New" ["PC"; "Switch"]) /\
  platform (mkGame "1" "New" ["PC"; "Switch"])
  = platform (mkGame "1" "Legend of Code" ["PC"; "Switch"]).
Proof.
  split; [reflexivity|]. split; [reflexivity|].
  apply (proj2 (updateGame_idempotent db "1" (mkEditGameInput (Some "New") None))
           (mkGame "1" "Legend of Code" ["PC"; "Switch"])
           (mkGame "1" "New" ["PC"; "Switch"]));
    reflexivity.
Defined.

(** ** Claims about unknown identifiers and dangling references *)

(** C6. With an identifier that no game has, [updateGame] and [deleteGame]
    change nothing: both hand back the store they were given (all three
    collections), [updateGame] returns [None] and [deleteGame] returns the
    whole games collection.  Both are total functions: there is no error
    result to return. *)
Theorem mutation_unknown_id_noop (d : Db) (args_id : string)
  (edits : EditGameInput) :
  (forall g, In g (Query.games d) -> id g <> args_id) ->
  Mutation.updateGame d args_id edits = (d, None) /\
  Mutation.deleteGame d args_id = (d, Query.games d).
Proof.
  unfold Query.games. intros H. split.
  - rewrite updateGame_unfold, map_edit_one_absent by assumption.
    rewrite set_games_same. f_equal.
    apply find_None_iff. intros y Hy. apply String.eqb_neq. auto.
  - unfold Mutation.deleteGame. rewrite filter_id.
    + now rewrite set_games_same.
    + intros y Hy. apply negb_true_iff, String.eqb_neq. auto.
Qed.

Lemma mutation_unknown_id_noop_witness :
  Mutation.updateGame db "42" (mkEditGameInput (Some "Nowhere") None)
  = (db, None) /\
  Mutation.deleteGame db "42" = (db, Query.games db).
Proof.
  apply (mutation_unknown_id_noop db "42" (mkEditGameInput (Some "Nowhere") None)).
  intros g Hg. simpl in Hg.
  repeat (destruct Hg as [<-|Hg]; [discriminate|]). destruct Hg.
Defined.

(** C7. [Review.game] returns [None] for a review whose [game_id] no game
    of the collection has, in particular once [deleteGame] was called with
    that [game_id]; and [deleteGame] does not change what [Game.reviews]
    returns, for the games that are left as for any other game. *)
Theorem dangling_game_reference (d : Db) (args_id : string) (r : Review) :
  ((forall g, In g (Query.games d) -> id g <> game_id r) ->
   Review.game d r = None) /\
  (game_id r = args_id ->
   Review.game (fst (Mutation.deleteGame d args_id)) r = None) /\
  (forall g, In g (snd (Mutation.deleteGame d args_id)) ->
     In g (Query.games d) /\ id g <> args_id /\
     Game.reviews (fst (Mutation.deleteGame d args_id)) g = Game.reviews d g) /\
  (forall g, Game.reviews (fst (Mutation.deleteGame d args_id)) g
             = Game.reviews d g).
Proof.
  unfold Review.game, Query.games, Game.reviews, Mutation.deleteGame. simpl.
  split; [|split; [|split]].
  - intros H. apply find_None_iff. intros y Hy. apply String.eqb_neq. auto.
  - intros <-. apply find_None_iff. intros y Hy.
    apply filter_In in Hy as [_ Hy]. now apply negb_true_iff in Hy.
  - intros g Hg. apply filter_In in Hg as [Hin Hg].
    apply negb_true_iff, String.eqb_neq in Hg. auto.
  - reflexivity.
Qed.

Lemma dangling_game_reference_witness :
  game_id review_104 = "1" /\
  Review.game (fst (Mutation.deleteGame db "1")) review_104 = None /\
  Review.game db (mkReview "105" 1 "Lost." "203" "8") = None.
Proof.
  split; [reflexivity|]. split.
  - apply (proj1 (proj2 (dangling_game_reference db "1" review_104))).
    reflexivity.
  - apply (proj1 (dangling_game_reference db "1"
                    (mkReview "105" 1 "Lost." "203" "8"))).
    intros g Hg. simpl in Hg.
    repeat (destruct Hg as [<-|Hg]; [discriminate|]). destruct Hg.
Defined.

(** ** Frame *)

(** C9. [addGame], [updateGame] and [deleteGame] leave the authors and the
    reviews collections as they were; the reviews of a deleted game stay in
    the reviews collection. *)
Theorem mutations_keep_authors_reviews (random : Number.double) (d : Db)
  (args_game : AddGameInput) (args_id : string) (edits : EditGameInput) :
  Query.authors (fst (Mutation.addGame random d args_game)) = Query.authors d /\
  Query.reviews (fst (Mutation.addGame random d args_game)) = Query.reviews d /\
  Query.authors (fst (Mutation.updateGame d args_id edits)) = Query.authors d /\
  Query.reviews (fst (Mutation.updateGame d args_id edits)) = Query.reviews d /\
  Query.authors (fst (Mutation.deleteGame d args_id)) = Query.authors d /\
  Query.reviews (fst (Mutation.deleteGame d args_id)) = Query.reviews d /\
  (forall r, In r (Query.reviews d) -> game_id r = args_id ->
             In r (Query.reviews (fst (Mutation.deleteGame d args_id)))).
Proof.
  repeat (split; [reflexivity|]). intros r Hr _. exact Hr.
Qed.

Lemma mutations_keep_authors_reviews_witness :
  In review_104 (Query.reviews db) /\
  game_id review_104 = "1" /\
  In review_104 (Query.reviews (fst (Mutation.deleteGame db "1"))).
Proof.
  assert (H : In review_104 (Query.reviews db)).
  { simpl. do 3 right. left. reflexivity. }
  split; [exact H|]. split; [reflexivity|].
  destruct (mutations_keep_authors_reviews draw_1 db elden_ring "1"
              (mkEditGameInput None None))
    as (_ & _ & _ & _ & _ & _ & Hkept).
  apply Hkept; [exact H|reflexivity].
Defined.

(** ** The generated identifier *)

Local Open Scope Z_scope.

(** Shifting out [s] bits ([B = 2 ^ s], at most 14 of them) from
    [10000 * m], where [m < X * B]: the quotient stays below [10000 * X],
    and so does its successor whenever the remainder reaches one half. *)
Lemma shifted_quotient_below (m X B half q rem : Z) :
  0 < X -> 0 < half <= 8192 -> B = 2 * half ->
  m < X * B -> m * 10000 = B * q + rem -> 0 <= rem < B ->
  q < 10000 * X /\ (half <= rem -> q + 1 < 10000 * X).
Proof.
  intros HX Hhalf HB Hm HP Hrem. split.
  - nia.
  - intros Hup. nia.
Qed.

Lemma floor_round_below (m k : Z) :
  0 < m < 2 ^ 53 -> 0 < k <= 1074 -> m < 2 ^ k ->
  0 <= Math.floor (Number.round (m * 10000) (- k)) <= 9999.
Proof.
  intros Hm Hk Hmk.
  set (P := m * 10000).
  assert (HP : 0 < P) by (unfold P; lia).
  pose proof (Z.log2_spec P HP) as Hlog.
  pose proof (Z.log2_nonneg P) as Hlog0.
  assert (Hlog67 : Z.log2 P < 67).
  { apply Z.log2_lt_pow2; [assumption|].
    change (2 ^ 67) with (16384 * 2 ^ 53). unfold P. lia. }
  assert (Hk0 : 0 < 2 ^ k) by (apply Z.pow_pos_nonneg; lia).
  unfold Number.round.
  replace (Z.max 0 (Z.max (Z.log2 P - 52) (-1074 - - k)))
    with (Z.max 0 (Z.log2 P - 52)) by lia.
  destruct (Z.eqb_spec (Z.max 0 (Z.log2 P - 52)) 0) as [Hs|Hs].
  - unfold Math.floor; cbn [Number.mant Number.expo].
    destruct (Z.leb_spec 0 (- k)); [lia|].
    rewrite Z.opp_involutive. split.
    + apply Z.div_pos; lia.
    + apply Z.lt_succ_r. change (Z.succ 9999) with 10000.
      apply Z.div_lt_upper_bound; [assumption|]. unfold P. lia.
  - assert (Hs1 : 1 <= Z.log2 P - 52 <= 14) by lia.
    replace (Z.max 0 (Z.log2 P - 52)) with (Z.log2 P - 52) by lia.
    clear Hs. set (s := Z.log2 P - 52) in *.
    assert (Hks : s < k).
    { assert (H : 2 ^ (s + 52) < 2 ^ (k + 14)).
      { replace (s + 52) with (Z.log2 P) by (unfold s; lia).
        rewrite (Z.pow_add_r 2 k 14) by lia.
        change (2 ^ 14) with 16384. unfold P in *. lia. }
      apply Z.pow_lt_mono_r_iff in H; lia. }
    set (B := 2 ^ s). set (half := 2 ^ (s - 1)). set (X := 2 ^ (k - s)).
    assert (HB : B = 2 * half).
    { unfold B, half. replace s with (1 + (s - 1)) at 1 by lia.
      rewrite Z.pow_add_r by lia. reflexivity. }
    assert (Hhalf : 0 < half <= 8192).
    { unfold half. split; [apply Z.pow_pos_nonneg; lia|].
      change 8192 with (2 ^ 13). apply Z.pow_le_mono_r; lia. }
    assert (HX : 0 < X) by (apply Z.pow_pos_nonneg; lia).
    assert (HkX : 2 ^ k = X * B).
    { unfold X, B. rewrite <- Z.pow_add_r by lia. f_equal. lia. }
    assert (HB0 : 0 < B) by lia.
    pose proof (Z.div_mod P B ltac:(lia)) as Hdiv.
    pose proof (Z.mod_pos_bound P B HB0) as Hrem.
    destruct (shifted_quotient_below m X B half (P / B) (P mod B))
      as [Hq Hq1]; try assumption; try lia.
    assert (Hq0 : 0 <= P / B) by (apply Z.div_pos; lia).
    unfold Math.floor; cbn [Number.mant Number.expo].
    destruct (Z.leb_spec 0 (- k + s)); [lia|].
    replace (- (- k + s)) with (k - s) by lia. fold X.
    assert (Hbound : forall q', 0 <= q' < 10000 * X -> 0 <= q' / X <= 9999).
    { intros q' Hq'. split; [apply Z.div_pos; lia|].
      apply Z.lt_succ_r. change (Z.succ 9999) with 10000.
      apply Z.div_lt_upper_bound; lia. }
    apply Hbound.
    destruct ((half <? P mod B) || ((P mod B =? half) && Z.odd (P / B)))%bool
      eqn:Hup; [|lia].
    split; [lia|]. apply Hq1.
    apply orb_true_iff in Hup as [Hup|Hup].
    + apply Z.ltb_lt in Hup. lia.
    + apply andb_true_iff in Hup as [Hup _]. apply Z.eqb_eq in Hup. lia.
Qed.

Lemma floor_round_zero (e : Z) :
  -1074 <= e -> Math.floor (Number.round 0 e) = 0.
Proof.
  intros He. unfold Number.round. change (Z.log2 0) with 0.
  replace (Z.max 0 (Z.max (0 - 52) (-1074 - e))) with 0 by lia.
  cbn [Z.eqb]. unfold Math.floor; cbn [Number.mant Number.expo].
  destruct (0 <=? e); [apply Z.mul_0_l|apply Zdiv_0_l].
Qed.

(** [Math.floor(Math.random() * 10000)] is one of 0, ..., 9999. *)
Lemma floor_random_times_10000 (random : Number.double) :
  Math.random_range random = true ->
  0 <= Math.floor (Number.mul random (Number.literal 10000)) <= 9999.
Proof.
  unfold Math.random_range, Number.finite_nonneg, Number.below_one, Number.mul.
  destruct random as [m e]; cbn [Number.mant Number.expo Number.literal].
  intros H. apply andb_true_iff in H as [Hfin Hlt].
  repeat (apply andb_true_iff in Hfin as [Hfin ?]).
  apply Z.leb_le in Hfin.
  repeat match goal with
         | H : (_ <? _) = true |- _ => apply Z.ltb_lt in H
         | H : (_ <=? _) = true |- _ => apply Z.leb_le in H
         end.
  rewrite Z.add_0_r.
  destruct (Z.eqb_spec m 0) as [->|Hm0].
  - change (0 * 10000) with 0. rewrite floor_round_zero; lia.
  - cbn [orb] in Hlt. apply andb_true_iff in Hlt as [He Hm].
    apply Z.ltb_lt in He, Hm.
    replace e with (- (- e)) by lia.
    apply floor_round_below; lia.
Qed.

Local Close Scope Z_scope.

Lemma floor_values_spec (n : Z) :
  (0 <= n <= 9999)%Z -> In n floor_values.
Proof.
  intros Hn. unfold floor_values. apply in_map_iff.
  exists (Z.to_nat n). split; [lia|]. apply in_seq. lia.
Qed.

Lemma floor_values_short_decimal :
  forallb short_decimal floor_values = true.
Proof. vm_compute. reflexivity. Qed.

Lemma toString_short_decimal (n : Z) :
  (0 <= n <= 9999)%Z ->
  1 <= String.length (Number.toString n) <= 4 /\
  decimal_value (Number.toString n) = Some n.
Proof.
  intros Hn. apply floor_values_spec in Hn.
  pose proof floor_values_short_decimal as H.
  rewrite forallb_forall in H. specialize (H n Hn).
  unfold short_decimal in H.
  apply andb_true_iff in H as [H Hv]. apply andb_true_iff in H as [H1 H4].
  apply Nat.leb_le in H1, H4. split; [lia|].
  destruct (decimal_value (Number.toString n)) as [v|]; [|discriminate].
  apply Z.eqb_eq in Hv. now subst.
Qed.

Lemma toString_nonempty (n : Z) : Number.toString n <> "".
Proof.
  unfold Number.toString.
  destruct (Z.to_int n) as [u|u]; simpl; [|discriminate].
  destruct u; discriminate.
Qed.

Lemma addGame_id (random : Number.double) (d : Db) (args_game : AddGameInput) :
  id (snd (Mutation.addGame random d args_game))
  = Number.toString (Math.floor (Number.mul random (Number.literal 10000))).
Proof. reflexivity. Qed.

Lemma generated_id_in_universe (c : addGame_call) :
  Math.random_range (fst (fst c)) = true -> In (generated_id c) id_universe.
Proof.
  destruct c as [[random d] args_game]. simpl fst. intros H.
  unfold generated_id. rewrite addGame_id. unfold id_universe.
  apply in_map, floor_values_spec, floor_random_times_10000, H.
Qed.

Lemma id_universe_length : Z.of_nat (List.length id_universe) = 10000%Z.
Proof.
  unfold id_universe, floor_values. rewrite !length_map, length_seq. lia.
Qed.

(** C10. The identifier that [addGame] generates is the decimal string of
    an integer between 0 and 9999: not empty, at most four digits.  All
    generated identifiers lie in a set of 10000 strings, so calls whose
    identifiers are pairwise distinct number at most 10000, and among more
    than 10000 calls two generate the same identifier. *)
Theorem addGame_id_range :
  (forall random d args_game,
     Math.random_range random = true ->
     exists n : Z,
       (0 <= n <= 9999)%Z /\
       id (snd (Mutation.addGame random d args_game)) = Number.toString n /\
       decimal_value (id (snd (Mutation.addGame random d args_game))) = Some n /\
       id (snd (Mutation.addGame random d args_game)) <> "" /\
       1 <= String.length (id (snd (Mutation.addGame random d args_game))) <= 4) /\
  (forall calls : list addGame_call,
     Forall (fun c => Math.random_range (fst (fst c)) = true) calls ->
     NoDup (map generated_id calls) ->
     (Z.of_nat (List.length calls) <= 10000)%Z) /\
  (forall calls : list addGame_call,
     Forall (fun c => Math.random_range (fst (fst c)) = true) calls ->
     (10000 < Z.of_nat (List.length calls))%Z ->
     ~ NoDup (map generated_id calls)).
Proof.
  assert (Hcount : forall calls : list addGame_call,
     Forall (fun c => Math.random_range (fst (fst c)) = true) calls ->
     NoDup (map generated_id calls) ->
     (Z.of_nat (List.length calls) <= 10000)%Z).
  { intros calls Hall Hnd.
    rewrite <- id_universe_length, <- (length_map generated_id calls).
    apply inj_le, NoDup_incl_length; [assumption|].
    intros s Hs. apply in_map_iff in Hs as (c & <- & Hc).
    apply generated_id_in_universe.
    rewrite Forall_forall in Hall. now apply Hall. }
  split; [|split].
  - intros random d args_game H. rewrite addGame_id.
    pose proof (floor_random_times_10000 random H) as Hn.
    exists (Math.floor (Number.mul random (Number.literal 10000))).
    destruct (toString_short_decimal _ Hn) as [Hlen Hval].
    repeat split; try assumption; try apply toString_nonempty; lia.
  - exact Hcount.
  - intros calls Hall Hlen Hnd. specialize (Hcount calls Hall Hnd). lia.
Qed.

Lemma addGame_id_range_witness :
  Math.random_range (Number.mkDouble 9007199254740991 (-53)) = true /\
  exists n : Z,
    (0 <= n <= 9999)%Z /\
    id (snd (Mutation.addGame (Number.mkDouble 9007199254740991 (-53)) db
               (mkAddGameInput "Elden Ring" ["PC"; "PlayStation"; "Xbox"])))
    = Number.toString n.
Proof.
  split; [reflexivity|].
  destruct (proj1 addGame_id_range
              (Number.mkDouble 9007199254740991 (-53)) db
              (mkAddGameInput "Elden Ring" ["PC"; "PlayStation"; "Xbox"])
              eq_refl) as (n & Hn & Hid & _).
  exists n. split; assumption.
Defined.

(** ** Claims about [addGame] and [deleteGame] *)

(** C2, as stated, fails: on the seed data and the draw 2^-13 the new game
    gets the identifier "1", which "Legend of Code" already has, and
    [Query.game] with that identifier returns "Legend of Code", not the new
    game. *)
Lemma addGame_id_collides :
  Math.random_range draw_1 = true /\
  snd (Mutation.addGame draw_1 db elden_ring)
  = mkGame "1" "Elden Ring" ["PC"; "PlayStation"; "Xbox"] /\
  In (id (snd (Mutation.addGame draw_1 db elden_ring)))
     (map id (Query.games db)) /\
  Query.game (fst (Mutation.addGame draw_1 db elden_ring))
             (id (snd (Mutation.addGame draw_1 db elden_ring)))
  = Some (mkGame "1" "Legend of Code" ["PC"; "Switch"]) /\
  Query.game (fst (Mutation.addGame draw_1 db elden_ring))
             (id (snd (Mutation.addGame draw_1 db elden_ring)))
  <> Some (snd (Mutation.addGame draw_1 db elden_ring)).
Proof.
  repeat split; try reflexivity.
  - left. reflexivity.
  - discriminate.
Qed.

(** C2, amended.  [addGame] returns a game with a non-empty identifier and
    the input's title and platform; the game is appended at the end of the
    games collection, which [Query.games] then returns with it; [Query.game]
    with the new identifier returns the new game when no earlier game had
    that identifier, and the first earlier game that had it otherwise. *)
Theorem addGame_appends (random : Number.double) (d : Db)
  (args_game : AddGameInput) :
  let after := fst (Mutation.addGame random d args_game) in
  let game := snd (Mutation.addGame random d args_game) in
  id game <> "" /\
  title game = input_title args_game /\
  platform game = input_platform args_game /\
  Query.games after = Query.games d ++ [game] /\
  In game (Query.games after) /\
  ((forall g, In g (Query.games d) -> id g <> id game) ->
   Query.game after (id game) = Some game) /\
  (forall g, Query.game d (id game) = Some g ->
             Query.game after (id game) = Some g).
Proof.
  intros after game.
  assert (Hfind : Query.game after (id game)
                  = match Query.game d (id game) with
                    | Some g => Some g
                    | None => Some game
                    end).
  { unfold Query.game, after. simpl Store.games.
    apply find_app_last. apply String.eqb_refl. }
  split; [apply toString_nonempty|].
  split; [reflexivity|]. split; [reflexivity|]. split; [reflexivity|].
  split; [|split].
  - unfold Query.games, after. simpl. apply in_or_app. right. now left.
  - intros Hfresh. rewrite Hfind.
    replace (Query.game d (id game)) with (@None Game); [reflexivity|].
    symmetry. apply find_None_iff. intros y Hy. apply String.eqb_neq. auto.
  - intros g Hg. rewrite Hfind, Hg. reflexivity.
Qed.

Lemma addGame_appends_witness :
  Query.game
    (fst (Mutation.addGame (Number.mkDouble 1 (-1)) db elden_ring))
    (id (snd (Mutation.addGame (Number.mkDouble 1 (-1)) db elden_ring)))
  = Some (snd (Mutation.addGame (Number.mkDouble 1 (-1)) db elden_ring)).
Proof.
  destruct (addGame_appends (Number.mkDouble 1 (-1)) db elden_ring)
    as (_ & _ & _ & _ & _ & Hfresh & _).
  apply Hfresh. intros g Hg. simpl in Hg.
  repeat (destruct Hg as [<-|Hg]; [discriminate|]). destruct Hg.
Defined.

(** C4, as stated, fails: in [db_twice_1], the seed data after an [addGame]
    that generated "1", two games have the identifier "1", and
    [deleteGame("1")] removes both: four games before, two after. *)
Lemma deleteGame_removes_two :
  In "1" (map id (Query.games db_twice_1)) /\
  List.length (Query.games db_twice_1) = 4 /\
  List.length (snd (Mutation.deleteGame db_twice_1 "1")) = 2 /\
  List.length (snd (Mutation.deleteGame db_twice_1 "1"))
  <> List.length (Query.games db_twice_1) - 1.
Proof.
  repeat split; try reflexivity.
  - left. reflexivity.
  - discriminate.
Qed.

(** C4, amended.  [deleteGame] removes every game that has the identifier,
    keeps the others in their order, and returns the whole games collection
    that results; the length drops by the number of games that had the
    identifier, so by one, with exactly that record removed, when exactly
    one game had it; a second call with the same identifier leaves the store
    as it is and returns the same collection. *)
Theorem deleteGame_removes_by_id (d : Db) (args_id : string) :
  let after := Mutation.deleteGame d args_id in
  snd after = Query.games (fst after) /\
  (forall g, In g (snd after) <-> In g (Query.games d) /\ id g <> args_id) /\
  Subseq (snd after) (Query.games d) /\
  List.length (snd after)
  + List.length (filter (fun g => id g =? args_id) (Query.games d))
  = List.length (Query.games d) /\
  (forall l1 g l2,
     Query.games d = l1 ++ g :: l2 -> id g = args_id ->
     (forall y, In y (l1 ++ l2) -> id y <> args_id) ->
     snd after = l1 ++ l2 /\
     List.length (snd after) = List.length (Query.games d) - 1) /\
  Mutation.deleteGame (fst after) args_id = after.
Proof.
  unfold Mutation.deleteGame, Query.games. simpl.
  split; [reflexivity|]. split; [|split; [|split; [|split]]].
  - intros g. rewrite filter_In, negb_true_iff, String.eqb_neq. reflexivity.
  - apply filter_Subseq.
  - apply filter_length_count.
  - intros l1 g l2 E Hg Hrest.
    assert (Hdel : filter (fun game => negb (id game =? args_id)) (Store.games d)
                   = l1 ++ l2).
    { rewrite E, filter_app. simpl.
      apply String.eqb_eq in Hg. rewrite Hg. simpl.
      rewrite !filter_id; [reflexivity| |];
        intros y Hy; apply negb_true_iff, String.eqb_neq, Hrest, in_or_app;
        auto. }
    rewrite Hdel, E, !length_app. simpl. split; [reflexivity|lia].
  - rewrite filter_filter_same. reflexivity.
Qed.

Lemma deleteGame_removes_by_id_witness :
  snd (Mutation.deleteGame db "2")
  = [mkGame "1" "Legend of Code" ["PC"; "Switch"];
     mkGame "3" "Terminal Quest" ["PC"]] /\
  List.length (snd (Mutation.deleteGame db "2"))
  = List.length (Query.games db) - 1.
Proof.
  apply (proj1 (proj2 (proj2 (proj2 (proj2
           (deleteGame_removes_by_id db "2")))))
           [mkGame "1" "Legend of Code" ["PC"; "Switch"]]
           (mkGame "2" "Bug Hunter 3000" ["Xbox"; "PlayStation"])
           [mkGame "3" "Terminal Quest" ["PC"]]).
  - reflexivity.
  - reflexivity.
  - intros y Hy. simpl in Hy.
    repeat (destruct Hy as [<-|Hy]; [discriminate|]). destruct Hy.
Defined.

(** * Further properties of the resolvers *)

(** ** Lookups, listings and identifiers *)

Lemma find_id_sound {A : Type} `{HasId A} (l : list A) (i : string) (x : A) :
  find (fun y => id y =? i) l = Some x -> In x l /\ id x = i.
Proof.
  intros E. apply find_some in E as [Hin Hx].
  split; [assumption|]. now apply String.eqb_eq.
Qed.

Lemma find_id_NoDup {A : Type} `{HasId A} (l : list A) (x : A) :
  NoDup (map id l) -> In x l -> find (fun y => id y =? id x) l = Some x.
Proof.
  induction l as [|a l IH]; simpl; intros Hnd Hin; [destruct Hin|].
  inversion Hnd as [|? ? Hna Hnd']; subst.
  destruct Hin as [->|Hin].
  - now rewrite String.eqb_refl.
  - destruct (String.eqb_spec (id a) (id x)) as [E|_].
    + exfalso. apply Hna. rewrite E. now apply in_map.
    + now apply IH.
Qed.

Lemma find_id_In {A : Type} `{HasId A} (l : list A) (x : A) :
  In x l -> exists y, find (fun z => id z =? id x) l = Some y /\ id y = id x.
Proof.
  intros Hin. destruct (find (fun z => id z =? id x) l) as [y|] eqn:E.
  - exists y. split; [reflexivity|]. now apply find_id_sound in E.
  - exfalso. pose proof (proj1 (find_None_iff _ l) E x Hin) as Hx.
    simpl in Hx. now rewrite String.eqb_refl in Hx.
Qed.

Lemma NoDup_map_filter {A B : Type} (g : A -> B) (f : A -> bool) (l : list A) :
  NoDup (map g l) -> NoDup (map g (filter f l)).
Proof.
  induction l as [|a l IH]; simpl; intros Hnd; [constructor|].
  inversion Hnd as [|? ? Hna Hnd']; subst.
  destruct (f a); simpl; [|auto].
  constructor; [|auto].
  intros Hin. apply Hna. apply in_map_iff in Hin as (y & Ey & Hy).
  apply filter_In in Hy as [Hy _]. apply in_map_iff. eauto.
Qed.

Lemma map_id_edit_one (i : string) (edits : EditGameInput) (l : list Game) :
  map id (map (edit_one i edits) l) = map id l.
Proof.
  rewrite map_map. apply map_ext. intros g. apply id_edit_one.
Qed.

Lemma find_filter_other {A : Type} `{HasId A} (l : list A) (i j : string) :
  i <> j ->
  find (fun x => id x =? j) (filter (fun x => negb (id x =? i)) l)
  = find (fun x => id x =? j) l.
Proof.
  intros Hij. induction l as [|a l IH]; simpl; [reflexivity|].
  destruct (String.eqb_spec (id a) i) as [Ei|Ei]; simpl.
  - destruct (String.eqb_spec (id a) j) as [Ej|_]; [congruence|assumption].
  - destruct (id a =? j); [reflexivity|assumption].
Qed.

Lemma find_filter_same {A : Type} `{HasId A} (l : list A) (i : string) :
  find (fun x => id x =? i) (filter (fun x => negb (id x =? i)) l) = None.
Proof.
  apply find_None_iff. intros y Hy. apply filter_In in Hy as [_ Hy].
  now apply negb_true_iff in Hy.
Qed.

Lemma find_edit_one_other (i j : string) (edits : EditGameInput)
  (l : list Game) :
  i <> j ->
  find (fun x => id x =? j) (map (edit_one i edits) l)
  = find (fun x => id x =? j) l.
Proof.
  intros Hij. induction l as [|a l IH]; simpl; [reflexivity|].
  rewrite id_edit_one. destruct (String.eqb_spec (id a) j) as [Ej|_].
  - rewrite edit_one_other by congruence. reflexivity.
  - assumption.
Qed.

(** X1. [Author.reviews] returns exactly the reviews whose [author_id] is
    the author's [id]: the same members, in the order of the reviews
    collection and as often as they occur there; it is empty exactly when
    no review has that [author_id]. *)
Theorem Author_reviews_exact (d : Db) (a : Author) :
  (forall r, In r (Author.reviews d a) <->
             In r (Query.reviews d) /\ author_id r = id a) /\
  Subseq (Author.reviews d a) (Query.reviews d) /\
  (forall l, Subseq l (Query.reviews d) ->
             Forall (fun r => author_id r = id a) l ->
             Subseq l (Author.reviews d a)) /\
  (Author.reviews d a = [] <->
   forall r, In r (Query.reviews d) -> author_id r <> id a).
Proof.
  unfold Author.reviews, Query.reviews.
  split; [|split; [|split]].
  - intros r. rewrite filter_In, String.eqb_eq. reflexivity.
  - apply filter_Subseq.
  - intros l Hsub Hall. apply filter_Subseq_max; [assumption|].
    eapply Forall_impl; [|exact Hall]. intros r Hr. now apply String.eqb_eq.
  - rewrite filter_nil_iff. split; intros H r Hr.
    + apply String.eqb_neq. auto.
    + apply String.eqb_neq. auto.
Qed.

Lemma Author_reviews_exact_witness :
  Subseq [mkReview "105" 4 "Again." "202" "3"]
         (Query.reviews
            (mkDb [] seed_authors [mkReview "105" 4 "Again." "202" "3"])) /\
  Subseq [mkReview "105" 4 "Again." "202" "3"]
         (Author.reviews
            (mkDb [] seed_authors [mkReview "105" 4 "Again." "202" "3"])
            (mkAuthor "202" "Bob Coder" false)).
Proof.
  assert (H : Subseq [mkReview "105" 4 "Again." "202" "3"]
                (Query.reviews
                   (mkDb [] seed_authors [mkReview "105" 4 "Again." "202" "3"]))).
  { simpl. apply Subseq_take, Subseq_nil. }
  split; [exact H|].
  apply (proj1 (proj2 (proj2
           (Author_reviews_exact
              (mkDb [] seed_authors [mkReview "105" 4 "Again." "202" "3"])
              (mkAuthor "202" "Bob Coder" false))))); [exact H|].
  constructor; [reflexivity|constructor].
Defined.

(** X2. A lookup by identifier returns a record of the listing that has the
    identifier; every listed record is reached by some lookup with its
    identifier; and when the identifiers of a collection are pairwise
    distinct, the lookup with a listed record's identifier returns that
    very record.  This holds for games, authors and reviews. *)
Theorem Query_lookup_listing (d : Db) :
  (forall i g, Query.game d i = Some g -> In g (Query.games d) /\ id g = i) /\
  (forall i a, Query.author d i = Some a ->
               In a (Query.authors d) /\ id a = i) /\
  (forall i r, Query.review d i = Some r ->
               In r (Query.reviews d) /\ id r = i) /\
  (forall g, In g (Query.games d) ->
             exists g', Query.game d (id g) = Some g' /\ id g' = id g) /\
  (forall a, In a (Query.authors d) ->
             exists a', Query.author d (id a) = Some a' /\ id a' = id a) /\
  (forall r, In r (Query.reviews d) ->
             exists r', Query.review d (id r) = Some r' /\ id r' = id r) /\
  (NoDup (map id (Query.games d)) ->
   forall g, In g (Query.games d) -> Query.game d (id g) = Some g) /\
  (NoDup (map id (Query.authors d)) ->
   forall a, In a (Query.authors d) -> Query.author d (id a) = Some a) /\
  (NoDup (map id (Query.reviews d)) ->
   forall r, In r (Query.reviews d) -> Query.review d (id r) = Some r).
Proof.
  unfold Query.game, Query.author, Query.review,
    Query.games, Query.authors, Query.reviews.
  split; [|split; [|split; [|split; [|split; [|split; [|split; [|split]]]]]]].
  - intros i g. apply find_id_sound.
  - intros i a. apply find_id_sound.
  - intros i r. apply find_id_sound.
  - intros g. apply find_id_In.
  - intros a. apply find_id_In.
  - intros r. apply find_id_In.
  - intros Hnd g. now apply find_id_NoDup.
  - intros Hnd a. now apply find_id_NoDup.
  - intros Hnd r. now apply find_id_NoDup.
Qed.

Lemma Query_lookup_listing_witness :
  NoDup (map id (Query.reviews db)) /\
  In review_104 (Query.reviews db) /\
  Query.review db (id review_104) = Some review_104.
Proof.
  assert (Hnd : NoDup (map id (Query.reviews db))).
  { simpl. repeat constructor; simpl; intuition discriminate. }
  assert (Hin : In review_104 (Query.reviews db)).
  { simpl. do 3 right. left. reflexivity. }
  split; [exact Hnd|]. split; [exact Hin|].
  destruct (Query_lookup_listing db) as (_ & _ & _ & _ & _ & _ & _ & _ & H).
  apply H; assumption.
Defined.

(** ** The two directions of a relationship *)

(** X3. [Game.reviews] and [Review.game] are the two directions of one
    relation.  A review whose game resolves to [g] is among the reviews of
    [g]; a review among the reviews of a listed game resolves to a game with
    that identifier; and when the game identifiers are pairwise distinct,
    the reviews of a listed game [g] are exactly the reviews whose game
    resolves to [g]. *)
Theorem Game_reviews_Review_game (d : Db) (g : Game) :
  (forall r, In r (Query.reviews d) -> Review.game d r = Some g ->
             In r (Game.reviews d g)) /\
  (In g (Query.games d) ->
   forall r, In r (Game.reviews d g) ->
             exists g', Review.game d r = Some g' /\ id g' = id g) /\
  (NoDup (map id (Query.games d)) -> In g (Query.games d) ->
   forall r, In r (Game.reviews d g) <->
             In r (Query.reviews d) /\ Review.game d r = Some g).
Proof.
  unfold Game.reviews, Review.game, Query.reviews, Query.games.
  assert (Hback : forall r, In r (Store.reviews d) ->
            find (fun game => id game =? game_id r) (Store.games d) = Some g ->
            In r (filter (fun review => game_id review =? id g)
                         (Store.reviews d))).
  { intros r Hr Hg. apply find_id_sound in Hg as [_ Hg].
    apply filter_In. split; [assumption|]. now apply String.eqb_eq. }
  split; [exact Hback|]. split.
  - intros Hg r Hr. apply filter_In in Hr as [_ Hr].
    apply String.eqb_eq in Hr. rewrite Hr. now apply find_id_In.
  - intros Hnd Hg r. split.
    + intros Hr. apply filter_In in Hr as [Hin Hr].
      apply String.eqb_eq in Hr. split; [assumption|].
      rewrite Hr. now apply find_id_NoDup.
    + intros [Hin Hr]. now apply Hback.
Qed.

Lemma Game_reviews_Review_game_witness :
  In review_104 (Game.reviews db (mkGame "1" "Legend of Code" ["PC"; "Switch"])).
Proof.
  apply (proj1 (Game_reviews_Review_game db
                  (mkGame "1" "Legend of Code" ["PC"; "Switch"]))).
  - simpl. do 3 right. left. reflexivity.
  - reflexivity.
Defined.

(** X4. [Author.reviews] and [Review.author] are the two directions of one
    relation, in the same way: a review whose author resolves to [a] is
    among the reviews of [a]; a review of a listed author resolves to an
    author with that identifier; with pairwise distinct author identifiers
    the reviews of a listed author [a] are exactly the reviews whose author
    resolves to [a]. *)
Theorem Author_reviews_Review_author (d : Db) (a : Author) :
  (forall r, In r (Query.reviews d) -> Review.author d r = Some a ->
             In r (Author.reviews d a)) /\
  (In a (Query.authors d) ->
   forall r, In r (Author.reviews d a) ->
             exists a', Review.author d r = Some a' /\ id a' = id a) /\
  (NoDup (map id (Query.authors d)) -> In a (Query.authors d) ->
   forall r, In r (Author.reviews d a) <->
             In r (Query.reviews d) /\ Review.author d r = Some a).
Proof.
  unfold Author.reviews, Review.author, Query.reviews, Query.authors.
  assert (Hback : forall r, In r (Store.reviews d) ->
            find (fun author => id author =? author_id r) (Store.authors d)
            = Some a ->
            In r (filter (fun review => author_id review =? id a)
                         (Store.reviews d))).
  { intros r Hr Ha. apply find_id_sound in Ha as [_ Ha].
    apply filter_In. split; [assumption|]. now apply String.eqb_eq. }
  split; [exact Hback|]. split.
  - intros Ha r Hr. apply filter_In in Hr as [_ Hr].
    apply String.eqb_eq in Hr. rewrite Hr. now apply find_id_In.
  - intros Hnd Ha r. split.
    + intros Hr. apply filter_In in Hr as [Hin Hr].
      apply String.eqb_eq in Hr. split; [assumption|].
      rewrite Hr. now apply find_id_NoDup.
    + intros [Hin Hr]. now apply Hback.
Qed.

Lemma Author_reviews_Review_author_witness :
  In review_104 (Author.reviews db (mkAuthor "202" "Bob Coder" false)).
Proof.
  apply (proj1 (Author_reviews_Review_author db
                  (mkAuthor "202" "Bob Coder" false))).
  - simpl. do 3 right. left. reflexivity.
  - reflexivity.
Defined.

(** ** Identifiers under the mutations *)

Lemma NoDup_snoc {A : Type} (l : list A) (x : A) :
  NoDup (l ++ [x]) <-> NoDup l /\ ~ In x l.
Proof.
  split.
  - intros H. apply NoDup_remove in H as [H1 H2].
    rewrite app_nil_r in H1, H2. split; assumption.
  - intros [H1 H2]. apply (NoDup_Add (a := x) (l := l)).
    + rewrite <- (app_nil_r l) at 1. apply Add_app.
    + split; assumption.
Qed.

(** X5. [updateGame] keeps the sequence of game identifiers; [deleteGame]
    keeps pairwise distinct identifiers distinct and removes from the
    sequence exactly the occurrences of its argument; after [addGame] the
    identifiers are pairwise distinct exactly when they were before and the
    generated identifier was not among them. *)
Theorem game_ids_under_mutations (random : Number.double) (d : Db)
  (args_game : AddGameInput) (args_id : string) (edits : EditGameInput) :
  map id (Query.games (fst (Mutation.updateGame d args_id edits)))
  = map id (Query.games d) /\
  map id (Query.games (fst (Mutation.deleteGame d args_id)))
  = filter (fun i => negb (i =? args_id)) (map id (Query.games d)) /\
  (NoDup (map id (Query.games d)) ->
   NoDup (map id (Query.games (fst (Mutation.deleteGame d args_id))))) /\
  (NoDup (map id (Query.games (fst (Mutation.addGame random d args_game)))) <->
   NoDup (map id (Query.games d)) /\
   ~ In (id (snd (Mutation.addGame random d args_game)))
        (map id (Query.games d))).
Proof.
  rewrite updateGame_unfold. unfold Query.games. simpl Store.games.
  split; [apply map_id_edit_one|]. split; [|split].
  - induction (Store.games d) as [|g l IH]; simpl; [reflexivity|].
    destruct (id g =? args_id); simpl; now rewrite IH.
  - apply NoDup_map_filter.
  - rewrite map_app. apply NoDup_snoc.
Qed.

Lemma game_ids_under_mutations_witness :
  NoDup (map id (Query.games db)) /\
  NoDup (map id (Query.games (fst (Mutation.deleteGame db "2")))).
Proof.
  assert (Hnd : NoDup (map id (Query.games db))).
  { simpl. repeat constructor; simpl; intuition discriminate. }
  split; [exact Hnd|].
  destruct (game_ids_under_mutations draw_1 db elden_ring "2"
              (mkEditGameInput None None)) as (_ & _ & H & _).
  apply H. exact Hnd.
Defined.

(** ** Lookups after a mutation *)

(** X6. After [deleteGame] the lookup with the deleted identifier finds
    nothing, and a review with that [game_id] resolves to no game; the
    lookup with any other identifier, and the game of a review with any
    other [game_id], are what they were. *)
Theorem deleteGame_then_lookup (d : Db) (args_id : string) :
  Query.game (fst (Mutation.deleteGame d args_id)) args_id = None /\
  (forall j, j <> args_id ->
     Query.game (fst (Mutation.deleteGame d args_id)) j = Query.game d j) /\
  (forall r, game_id r <> args_id ->
     Review.game (fst (Mutation.deleteGame d args_id)) r = Review.game d r).
Proof.
  unfold Query.game, Review.game, Mutation.deleteGame. simpl.
  split; [apply find_filter_same|]. split.
  - intros j Hj. apply find_filter_other. congruence.
  - intros r Hr. apply find_filter_other. congruence.
Qed.

Lemma deleteGame_then_lookup_witness :
  Query.game (fst (Mutation.deleteGame db "1")) "3" = Query.game db "3".
Proof.
  apply (proj1 (proj2 (deleteGame_then_lookup db "1")) "3"). discriminate.
Defined.

(** X7. [updateGame] changes the lookup of no other identifier, and the
    game that a review with another [game_id] resolves to; with its own
    identifier the lookup finds a game afterwards exactly when it found
    one before. *)
Theorem updateGame_then_lookup (d : Db) (args_id : string)
  (edits : EditGameInput) :
  (forall j, j <> args_id ->
     Query.game (fst (Mutation.updateGame d args_id edits)) j
     = Query.game d j) /\
  (forall r, game_id r <> args_id ->
     Review.game (fst (Mutation.updateGame d args_id edits)) r
     = Review.game d r) /\
  (Query.game (fst (Mutation.updateGame d args_id edits)) args_id = None <->
   Query.game d args_id = None).
Proof.
  rewrite updateGame_unfold. unfold Query.game, Review.game. simpl.
  split; [|split].
  - intros j Hj. apply find_edit_one_other. congruence.
  - intros r Hr. apply find_edit_one_other. congruence.
  - rewrite find_map_edit_one.
    destruct (find _ (Store.games d)); simpl; split; congruence.
Qed.

Lemma updateGame_then_lookup_witness :
  Query.game
    (fst (Mutation.updateGame db "1" (mkEditGameInput (Some "New") None))) "2"
  = Query.game db "2".
Proof.
  apply (proj1 (updateGame_then_lookup db "1"
                  (mkEditGameInput (Some "New") None)) "2").
  discriminate.
Defined.

Lemma find_snoc {A : Type} (f : A -> bool) (l : list A) (x : A) :
  find f (l ++ [x])
  = match find f l with
    | Some y => Some y
    | None => if f x then Some x else None
    end.
Proof.
  induction l as [|a l IH]; simpl; [reflexivity|].
  now destruct (f a).
Qed.

(** X8. [addGame] makes the games collection one longer and hides no game:
    a lookup that found a game finds the same game afterwards, a review
    that resolved to a game resolves to the same game, and lookups with an
    identifier other than the generated one are unchanged.  A review whose
    game was missing resolves to the new game when the generated identifier
    is its [game_id]. *)
Theorem addGame_then_lookup (random : Number.double) (d : Db)
  (args_game : AddGameInput) :
  let after := fst (Mutation.addGame random d args_game) in
  let game := snd (Mutation.addGame random d args_game) in
  List.length (Query.games after) = S (List.length (Query.games d)) /\
  (forall j g, Query.game d j = Some g -> Query.game after j = Some g) /\
  (forall r g, Review.game d r = Some g -> Review.game after r = Some g) /\
  (forall j, j <> id game -> Query.game after j = Query.game d j) /\
  (forall r, Review.game d r = None -> game_id r = id game ->
             Review.game after r = Some game).
Proof.
  intros after game.
  assert (Hfind : forall j,
            find (fun g => id g =? j) (Store.games after)
            = match find (fun g => id g =? j) (Store.games d) with
              | Some g => Some g
              | None => if id game =? j then Some game else None
              end).
  { intros j. exact (find_snoc (fun g => id g =? j) (Store.games d) game). }
  unfold Query.game, Review.game, Query.games.
  split; [|split; [|split; [|split]]].
  - unfold after. simpl. rewrite length_app. simpl. lia.
  - intros j g Hg. now rewrite Hfind, Hg.
  - intros r g Hg. now rewrite Hfind, Hg.
  - intros j Hj. rewrite Hfind.
    destruct (find _ (Store.games d)); [reflexivity|].
    destruct (String.eqb_spec (id game) j); congruence.
  - intros r Hr Hid. rewrite Hfind, Hr, Hid, String.eqb_refl. reflexivity.
Qed.

Lemma addGame_then_lookup_witness :
  Query.game db "2"
  = Some (mkGame "2" "Bug Hunter 3000" ["Xbox"; "PlayStation"]) /\
  Query.game (fst (Mutation.addGame draw_1 db elden_ring)) "2"
  = Some (mkGame "2" "Bug Hunter 3000" ["Xbox"; "PlayStation"]).
Proof.
  split; [reflexivity|].
  destruct (addGame_then_lookup draw_1 db elden_ring) as (_ & H & _).
  apply H. reflexivity.
Defined.

(** ** How the mutations compose *)

Lemma deleteGame_unfold (d : Db) (i : string) :
  Mutation.deleteGame d i =
  (set_games d (filter (fun game => negb (id game =? i)) (Store.games d)),
   filter (fun game => negb (id game =? i)) (Store.games d)).
Proof. reflexivity. Qed.

Lemma filter_snoc_new (l : list Game) (g : Game) :
  filter (fun game => negb (id game =? id g)) (l ++ [g])
  = filter (fun game => negb (id game =? id g)) l.
Proof.
  rewrite filter_app. simpl. rewrite String.eqb_refl. simpl.
  apply app_nil_r.
Qed.

(** X9. [deleteGame] with the identifier that [addGame] just generated
    undoes the [addGame] when no earlier game had that identifier: the
    store is the one before the two calls.  In general the two calls leave
    the store that [deleteGame] alone would have left: earlier games with
    the generated identifier are deleted with the new one. *)
Theorem addGame_then_deleteGame (random : Number.double) (d : Db)
  (args_game : AddGameInput) :
  let after := fst (Mutation.addGame random d args_game) in
  let game := snd (Mutation.addGame random d args_game) in
  Mutation.deleteGame after (id game) = Mutation.deleteGame d (id game) /\
  ((forall g, In g (Query.games d) -> id g <> id game) ->
   Mutation.deleteGame after (id game) = (d, Query.games d)).
Proof.
  intros after game.
  assert (E : Mutation.deleteGame after (id game)
              = Mutation.deleteGame d (id game)).
  { pose proof (filter_snoc_new (Store.games d) game) as Hf.
    rewrite !deleteGame_unfold.
    change (Store.games after) with (Store.games d ++ [game]).
    rewrite Hf. reflexivity. }
  split; [exact E|].
  intros Hfresh. rewrite E. unfold Mutation.deleteGame, Query.games.
  rewrite filter_id.
  - now rewrite set_games_same.
  - intros y Hy. apply negb_true_iff, String.eqb_neq. auto.
Qed.

Lemma addGame_then_deleteGame_witness :
  Mutation.deleteGame
    (fst (Mutation.addGame (Number.mkDouble 1 (-1)) db elden_ring))
    (id (snd (Mutation.addGame (Number.mkDouble 1 (-1)) db elden_ring)))
  = (db, Query.games db).
Proof.
  destruct (addGame_then_deleteGame (Number.mkDouble 1 (-1)) db elden_ring)
    as [_ H].
  apply H. intros g Hg. simpl in Hg.
  repeat (destruct Hg as [<-|Hg]; [discriminate|]). destruct Hg.
Defined.

Lemma spread_empty (g : Game) :
  Mutation.spread g (mkEditGameInput None None) = g.
Proof. now destruct g. Qed.

Lemma spread_edits_then (g : Game) (first second : EditGameInput) :
  Mutation.spread (Mutation.spread g first) second
  = Mutation.spread g (edits_then first second).
Proof.
  unfold Mutation.spread, edits_then; simpl.
  destruct (edits_title second), (edits_platform second); reflexivity.
Qed.

Lemma edit_one_edits_then (i : string) (first second : EditGameInput)
  (g : Game) :
  edit_one i second (edit_one i first g) = edit_one i (edits_then first second) g.
Proof.
  unfold edit_one. destruct (id g =? i) eqn:E.
  - change (id (Mutation.spread g first)) with (id g). rewrite E.
    apply spread_edits_then.
  - now rewrite E.
Qed.

Lemma edit_one_commute (i j : string) (e1 e2 : EditGameInput) (g : Game) :
  i <> j ->
  edit_one j e2 (edit_one i e1 g) = edit_one i e1 (edit_one j e2 g).
Proof.
  intros Hij. unfold edit_one.
  destruct (String.eqb_spec (id g) i) as [Ei|Ei];
    destruct (String.eqb_spec (id g) j) as [Ej|Ej]; try congruence.
  - change (id (Mutation.spread g e1)) with (id g).
    destruct (String.eqb_spec (id g) j); [congruence|].
    destruct (String.eqb_spec (id g) i); [reflexivity|congruence].
  - change (id (Mutation.spread g e2)) with (id g).
    destruct (String.eqb_spec (id g) i); [congruence|].
    destruct (String.eqb_spec (id g) j); [reflexivity|congruence].
  - destruct (String.eqb_spec (id g) i); [congruence|].
    destruct (String.eqb_spec (id g) j); [congruence|reflexivity].
Qed.

(** X10. Two [updateGame] calls with the same identifier amount to one
    call with the spread of the two edits objects: the second call's fields
    win, the first call's other fields stay.  With an edits object that
    carries no field, [updateGame] changes nothing and returns what the
    lookup returns. *)
Theorem updateGame_twice (d : Db) (args_id : string)
  (first second : EditGameInput) :
  Mutation.updateGame (fst (Mutation.updateGame d args_id first))
    args_id second
  = Mutation.updateGame d args_id (edits_then first second) /\
  Mutation.updateGame d args_id (mkEditGameInput None None)
  = (d, Query.game d args_id).
Proof.
  split.
  - rewrite !updateGame_unfold. simpl. rewrite map_map.
    rewrite (map_ext _ _ (edit_one_edits_then args_id first second)).
    destruct d; reflexivity.
  - rewrite updateGame_unfold. unfold Query.game.
    assert (E : map (edit_one args_id (mkEditGameInput None None))
                    (Store.games d) = Store.games d).
    { rewrite <- (map_id (Store.games d)) at 2. apply map_ext.
      intros g. unfold edit_one.
      destruct (id g =? args_id); [apply spread_empty|reflexivity]. }
    rewrite E, set_games_same. reflexivity.
Qed.

(** X11. Mutations on different identifiers do not depend on their order:
    two [updateGame] calls with different identifiers, an [updateGame] and
    a [deleteGame] with different identifiers, and any two [deleteGame]
    calls leave the same store in either order. *)
Theorem mutations_commute (d : Db) (i j : string) (e1 e2 : EditGameInput) :
  (i <> j ->
   fst (Mutation.updateGame (fst (Mutation.updateGame d i e1)) j e2)
   = fst (Mutation.updateGame (fst (Mutation.updateGame d j e2)) i e1)) /\
  (i <> j ->
   fst (Mutation.deleteGame (fst (Mutation.updateGame d i e1)) j)
   = fst (Mutation.updateGame (fst (Mutation.deleteGame d j)) i e1)) /\
  fst (Mutation.deleteGame (fst (Mutation.deleteGame d i)) j)
  = fst (Mutation.deleteGame (fst (Mutation.deleteGame d j)) i).
Proof.
  repeat (rewrite updateGame_unfold || rewrite deleteGame_unfold). simpl.
  split; [|split].
  - intros Hij. unfold set_games. simpl. f_equal. rewrite !map_map.
    apply map_ext. intros g. now apply edit_one_commute.
  - intros Hij. unfold set_games. simpl. f_equal.
    induction (Store.games d) as [|g l IH]; simpl; [reflexivity|].
    rewrite id_edit_one. destruct (id g =? j); simpl; now rewrite IH.
  - unfold set_games. simpl. f_equal.
    induction (Store.games d) as [|g l IH]; simpl; [reflexivity|].
    destruct (id g =? i) eqn:Ei; destruct (id g =? j) eqn:Ej; simpl;
      rewrite ?Ei, ?Ej; simpl; now rewrite IH.
Qed.

Lemma mutations_commute_witness :
  fst (Mutation.updateGame
         (fst (Mutation.updateGame db "1" (mkEditGameInput (Some "A") None)))
         "2" (mkEditGameInput None (Some ["PC"])))
  = fst (Mutation.updateGame
           (fst (Mutation.updateGame db "2" (mkEditGameInput None (Some ["PC"]))))
           "1" (mkEditGameInput (Some "A") None)).
Proof.
  apply (proj1 (mutations_commute db "1" "2" (mkEditGameInput (Some "A") None)
                  (mkEditGameInput None (Some ["PC"])))).
  discriminate.
Defined.

(** X12. [deleteGame] after [updateGame] with the same identifier leaves
    the store that [deleteGame] alone leaves: the edits are lost with the
    game.  [updateGame] after [deleteGame] with the same identifier finds
    nothing to update: it returns [None] and keeps the store. *)
Theorem updateGame_deleteGame_same_id (d : Db) (args_id : string)
  (edits : EditGameInput) :
  Mutation.deleteGame (fst (Mutation.updateGame d args_id edits)) args_id
  = Mutation.deleteGame d args_id /\
  Mutation.updateGame (fst (Mutation.deleteGame d args_id)) args_id edits
  = (fst (Mutation.deleteGame d args_id), None).
Proof.
  split.
  - rewrite updateGame_unfold. unfold Mutation.deleteGame. simpl.
    assert (E : filter (fun game => negb (id game =? args_id))
                       (map (edit_one args_id edits) (Store.games d))
                = filter (fun game => negb (id game =? args_id))
                         (Store.games d)).
    { induction (Store.games d) as [|g l IH]; simpl; [reflexivity|].
      rewrite id_edit_one. destruct (id g =? args_id) eqn:Eg; simpl.
      - assumption.
      - rewrite IH. unfold edit_one. now rewrite Eg. }
    rewrite E. reflexivity.
  - rewrite updateGame_unfold. unfold Mutation.deleteGame. simpl.
    rewrite map_edit_one_absent.
    + rewrite find_filter_same. unfold set_games. reflexivity.
    + intros g Hg. apply filter_In in Hg as [_ Hg].
      now apply negb_true_iff, String.eqb_neq in Hg.
Qed.

(** ** The space of generated identifiers *)

Lemma draw_for_spec (n : Z) :
  (0 <= n <= 9999)%Z ->
  Math.random_range (draw_for n) = true /\
  Math.floor (Number.mul (draw_for n) (Number.literal 10000)) = n.
Proof.
  intros Hn. unfold draw_for.
  change (2 ^ 39)%Z with 549755813888%Z.
  set (m := ((2 * n + 1) * 549755813888 / 20000)%Z).
  assert (Hm : (20000 * m <= (2 * n + 1) * 549755813888 < 20000 * m + 20000)%Z).
  { unfold m. split.
    - apply Z.mul_div_le. lia.
    - pose proof (Z.mul_succ_div_gt ((2 * n + 1) * 549755813888) 20000).
      lia. }
  assert (Hm0 : (0 < m < 549755813888)%Z) by lia.
  split.
  - unfold Math.random_range, Number.finite_nonneg, Number.below_one.
    cbn [Number.mant Number.expo].
    change (- -39)%Z with 39%Z. change (2 ^ 39)%Z with 549755813888%Z.
    change (2 ^ 53)%Z with 9007199254740992%Z.
    repeat (apply andb_true_iff; split);
      try (apply Z.leb_le; lia); try (apply Z.ltb_lt; lia).
    apply orb_true_iff. right. apply andb_true_iff.
    split; apply Z.ltb_lt; lia.
  - unfold Number.mul, Number.literal, Number.round.
    cbn [Number.mant Number.expo].
    assert (Hlog : (Z.log2 (m * 10000) < 53)%Z).
    { apply Z.log2_lt_pow2; [lia|].
      change (2 ^ 53)%Z with 9007199254740992%Z. lia. }
    replace (Z.max 0 (Z.max (Z.log2 (m * 10000) - 52) (-1074 - (-39 + 0))))
      with 0%Z by lia.
    cbn [Z.eqb]. unfold Math.floor. cbn [Number.mant Number.expo].
    change (0 <=? -39 + 0)%Z with false. cbv iota.
    change (2 ^ (- (-39 + 0)))%Z with 549755813888%Z.
    symmetry. apply Z.div_unique with (r := (m * 10000 - 549755813888 * n)%Z);
      lia.
Qed.

Lemma floor_values_range (n : Z) :
  In n floor_values -> (0 <= n <= 9999)%Z.
Proof.
  unfold floor_values. intros H. apply in_map_iff in H as (k & <- & Hk).
  apply in_seq in Hk. lia.
Qed.

Lemma NoDup_map_inj_on {A B : Type} (f : A -> B) (l : list A) :
  (forall x y, In x l -> In y l -> f x = f y -> x = y) ->
  NoDup l -> NoDup (map f l).
Proof.
  induction l as [|a l IH]; simpl; intros Hinj Hnd; [constructor|].
  inversion Hnd as [|? ? Hna Hnd']; subst. constructor.
  - intros Hin. apply in_map_iff in Hin as (y & Ey & Hy).
    apply Hna. rewrite (Hinj a y); auto.
  - apply IH; auto.
Qed.

Lemma id_universe_NoDup : NoDup id_universe.
Proof.
  unfold id_universe. apply NoDup_map_inj_on.
  - intros x y Hx Hy E.
    apply floor_values_range, toString_short_decimal in Hx as [_ Hx].
    apply floor_values_range, toString_short_decimal in Hy as [_ Hy].
    rewrite E in Hx. congruence.
  - unfold floor_values. apply NoDup_map_inj_on; [|apply seq_NoDup].
    intros x y _ _. apply Nat2Z.inj.
Qed.

(** X13. Every integer from 0 to 9999 is the floor of [random * 10000] for
    some result [random] of [Math.random()], so [addGame] can generate the
    decimal string of each of them; these 10000 strings are pairwise
    distinct, and they are exactly the identifiers that [addGame] can
    generate. *)
Theorem addGame_id_space :
  (forall n, (0 <= n <= 9999)%Z ->
     Math.random_range (draw_for n) = true /\
     forall d args_game,
       id (snd (Mutation.addGame (draw_for n) d args_game))
       = Number.toString n) /\
  NoDup id_universe /\
  (forall s, In s id_universe <->
     exists random,
       Math.random_range random = true /\
       forall d args_game,
         id (snd (Mutation.addGame random d args_game)) = s).
Proof.
  assert (Hhit : forall n, (0 <= n <= 9999)%Z ->
     Math.random_range (draw_for n) = true /\
     forall d args_game,
       id (snd (Mutation.addGame (draw_for n) d args_game))
       = Number.toString n).
  { intros n Hn. destruct (draw_for_spec n Hn) as [Hr Hf].
    split; [assumption|]. intros d args_game.
    rewrite addGame_id, Hf. reflexivity. }
  split; [exact Hhit|]. split; [apply id_universe_NoDup|].
  intros s. split.
  - unfold id_universe. intros Hs. apply in_map_iff in Hs as (n & <- & Hn).
    apply floor_values_range in Hn. exists (draw_for n). now apply Hhit.
  - intros (random & Hr & Hs).
    pose proof (generated_id_in_universe (random, db, elden_ring) Hr) as Hin.
    unfold generated_id in Hin. rewrite (Hs db elden_ring) in Hin.
    exact Hin.
Qed.

Lemma addGame_id_space_witness :
  Math.random_range (draw_for 4321) = true /\
  id (snd (Mutation.addGame (draw_for 4321) db elden_ring)) = "4321".
Proof.
  destruct (proj1 addGame_id_space 4321%Z) as [Hr Hid]; [lia|].
  split; [exact Hr|]. exact (Hid db elden_ring).
Defined.

(** ** Sequences of mutation calls *)

Lemma store_after_frame (d : Db) (c : mutation_call) :
  Store.authors (store_after d c) = Store.authors d /\
  Store.reviews (store_after d c) = Store.reviews d.
Proof. destruct c; split; reflexivity. Qed.

Lemma store_after_all_frame (cs : list mutation_call) (d : Db) :
  Store.authors (store_after_all cs d) = Store.authors d /\
  Store.reviews (store_after_all cs d) = Store.reviews d.
Proof.
  unfold store_after_all. revert d.
  induction cs as [|c cs IH]; intros d; simpl; [split; reflexivity|].
  destruct (IH (store_after d c)) as [Ha Hr].
  destruct (store_after_frame d c) as [Ha' Hr'].
  split; congruence.
Qed.

(** X14. No sequence of mutation calls, from any store, changes the
    authors or the reviews collection, nor therefore what [Author.reviews],
    [Game.reviews], [Review.author], [Query.author] and [Query.review]
    return: a review keeps its author whatever happens to the games. *)
Theorem mutation_calls_frame (cs : list mutation_call) (d : Db) :
  let after := store_after_all cs d in
  Query.authors after = Query.authors d /\
  Query.reviews after = Query.reviews d /\
  (forall a, Author.reviews after a = Author.reviews d a) /\
  (forall g, Game.reviews after g = Game.reviews d g) /\
  (forall r, Review.author after r = Review.author d r) /\
  (forall i, Query.author after i = Query.author d i) /\
  (forall i, Query.review after i = Query.review d i).
Proof.
  intros after. destruct (store_after_all_frame cs d) as [Ha Hr].
  fold after in Ha, Hr.
  unfold Query.authors, Query.reviews, Author.reviews, Game.reviews,
    Review.author, Query.author, Query.review.
  rewrite Ha, Hr. repeat split.
Qed.

Lemma seed_game_ids_in_universe :
  forall g, In g seed_games -> In (id g) id_universe.
Proof.
  intros g Hg. unfold id_universe.
  simpl in Hg. destruct Hg as [<-|[<-|[<-|[]]]].
  - change (id (mkGame "1" "Legend of Code" ["PC"; "Switch"]))
      with (Number.toString 1).
    apply in_map, floor_values_spec. lia.
  - change (id (mkGame "2" "Bug Hunter 3000" ["Xbox"; "PlayStation"]))
      with (Number.toString 2).
    apply in_map, floor_values_spec. lia.
  - change (id (mkGame "3" "Terminal Quest" ["PC"]))
      with (Number.toString 3).
    apply in_map, floor_values_spec. lia.
Qed.

Lemma store_after_ids (P : string -> Prop) (d : Db) (c : mutation_call) :
  match c with
  | call_addGame random _ =>
      P (Number.toString
           (Math.floor (Number.mul random (Number.literal 10000))))
  | _ => True
  end ->
  (forall g, In g (Store.games d) -> P (id g)) ->
  forall g, In g (Store.games (store_after d c)) -> P (id g).
Proof.
  intros Hc Hd g Hg. destruct c as [random args_game|i edits|i]; simpl in Hg.
  - apply in_app_or in Hg as [Hg|[<-|[]]]; [auto|exact Hc].
  - apply in_map_iff in Hg as (g0 & <- & Hg0).
    change (P (id (edit_one i edits g0))). rewrite id_edit_one. auto.
  - apply filter_In in Hg as [Hg _]. auto.
Qed.

Lemma store_after_all_ids (cs : list mutation_call) (d : Db) :
  draws_in_range cs ->
  (forall g, In g (Store.games d) -> In (id g) id_universe) ->
  forall g, In g (Store.games (store_after_all cs d)) -> In (id g) id_universe.
Proof.
  unfold store_after_all. revert d.
  induction cs as [|c cs IH]; intros d Hcs Hd; cbn [fold_left]; [exact Hd|].
  inversion Hcs as [|? ? Hc Hcs']; subst.
  apply IH; [assumption|].
  apply (store_after_ids (fun s => In s id_universe)); [|assumption].
  destruct c as [random args_game| |]; [|exact I|exact I].
  unfold id_universe.
  apply in_map, floor_values_spec, floor_random_times_10000, Hc.
Qed.

(** X15. In every store that is reached from the seed data by mutation
    calls, the authors and reviews are the seed's, every review resolves to
    the author that its [author_id] names, and, the draws being results of
    [Math.random()], every game identifier is the decimal string of an
    integer from 0 to 9999, so the games have at most 10000 distinct
    identifiers. *)
Theorem reachable_store_invariants (cs : list mutation_call) :
  draws_in_range cs ->
  let d := store_after_all cs db in
  Query.authors d = seed_authors /\
  Query.reviews d = seed_reviews /\
  (forall r, In r (Query.reviews d) ->
     exists a, Review.author d r = Some a /\ id a = author_id r) /\
  (forall g, In g (Query.games d) -> In (id g) id_universe) /\
  (forall ids, NoDup ids -> incl ids (map id (Query.games d)) ->
               (Z.of_nat (List.length ids) <= 10000)%Z).
Proof.
  intros Hcs d.
  destruct (store_after_all_frame cs db) as [Ha Hr]. fold d in Ha, Hr.
  assert (Hids : forall g, In g (Query.games d) -> In (id g) id_universe).
  { apply store_after_all_ids; [assumption|].
    exact seed_game_ids_in_universe. }
  unfold Query.authors, Query.reviews, Review.author.
  rewrite Ha, Hr.
  split; [reflexivity|]. split; [reflexivity|]. split; [|split].
  - intros r Hin. simpl in Hin.
    destruct Hin as [<-|[<-|[<-|[<-|[]]]]]; eexists; split; reflexivity.
  - exact Hids.
  - intros ids Hnd Hincl. rewrite <- id_universe_length.
    apply inj_le, NoDup_incl_length; [assumption|].
    intros s Hs. apply Hincl, in_map_iff in Hs as (g & <- & Hg). auto.
Qed.

Lemma reachable_store_invariants_witness :
  draws_in_range [call_addGame draw_1 elden_ring; call_deleteGame "2"] /\
  Query.reviews
    (store_after_all [call_addGame draw_1 elden_ring; call_deleteGame "2"] db)
  = seed_reviews.
Proof.
  assert (H : draws_in_range
                [call_addGame draw_1 elden_ring; call_deleteGame "2"]).
  { repeat constructor. }
  split; [exact H|].
  apply (reachable_store_invariants
           [call_addGame draw_1 elden_ring; call_deleteGame "2"] H).
Defined.

Lemma store_after_length (d : Db) (c : mutation_call) :
  List.length (Store.games (store_after d c))
  <= List.length (Store.games d) + (if is_addGame c then 1 else 0) /\
  (is_deleteGame c = false ->
   List.length (Store.games (store_after d c))
   = List.length (Store.games d) + (if is_addGame c then 1 else 0)).
Proof.
  destruct c as [random args_game|i edits|i]; simpl.
  - rewrite length_app. simpl. lia.
  - rewrite length_map. lia.
  - split; [|discriminate].
    pose proof (filter_length_count (fun g => id g =? i) (Store.games d)).
    lia.
Qed.

Lemma store_after_lookup (d : Db) (c : mutation_call) (i : string) (g : Game) :
  is_deleteGame c = false ->
  find (fun game => id game =? i) (Store.games d) = Some g ->
  exists g', find (fun game => id game =? i) (Store.games (store_after d c))
             = Some g' /\ id g' = i.
Proof.
  intros Hc Hg. pose proof (find_id_sound _ _ _ Hg) as [_ Hid].
  destruct c as [random args_game|j edits|j]; [| |discriminate].
  - exists g. split; [|assumption].
    cbn [store_after Mutation.addGame fst set_games Store.games].
    rewrite find_snoc, Hg. reflexivity.
  - cbn [store_after]. rewrite updateGame_unfold.
    cbn [fst set_games Store.games].
    destruct (String.eqb_spec j i) as [->|Hji].
    + rewrite find_map_edit_one, Hg. simpl. eexists. split; [reflexivity|].
      assumption.
    + rewrite find_edit_one_other by assumption. eauto.
Qed.

(** X16. After a sequence of mutation calls the games collection has at
    most as many games more as there were [addGame] calls.  When no call
    is a [deleteGame], it has exactly that many more, and every identifier
    that a lookup found before is still found: a review whose game
    resolved still resolves to a game with its [game_id], so only
    [deleteGame] leaves a review without its game. *)
Theorem mutation_calls_games (cs : list mutation_call) (d : Db) :
  let after := store_after_all cs d in
  List.length (Query.games after)
  <= List.length (Query.games d) + List.length (filter is_addGame cs) /\
  (forallb (fun c => negb (is_deleteGame c)) cs = true ->
   List.length (Query.games after)
   = List.length (Query.games d) + List.length (filter is_addGame cs) /\
   (forall i g, Query.game d i = Some g ->
      exists g', Query.game after i = Some g' /\ id g' = i) /\
   (forall r g, Review.game d r = Some g ->
      exists g', Review.game after r = Some g' /\ id g' = game_id r)).
Proof.
  unfold store_after_all, Query.games, Query.game, Review.game.
  revert d. induction cs as [|c cs IH]; intros d; cbn [fold_left filter forallb].
  - split; [simpl; lia|]. intros _. split; [simpl; lia|].
    split; intros x g Hg; exists g; split; trivial;
      now apply find_id_sound in Hg.
  - destruct (IH (store_after d c)) as [Hle Hrest].
    destruct (store_after_length d c) as [Hle1 Heq1].
    split.
    + destruct (is_addGame c); simpl in *; lia.
    + intros Hnd. apply andb_true_iff in Hnd as [Hc Hcs].
      apply negb_true_iff in Hc.
      destruct (Hrest Hcs) as (Hlen & Hq & Hr). specialize (Heq1 Hc).
      split; [destruct (is_addGame c); simpl in *; lia|].
      split.
      * intros i g Hg.
        destruct (store_after_lookup d c i g Hc Hg) as (g1 & Hg1 & _).
        eauto.
      * intros r g Hg.
        destruct (store_after_lookup d c (game_id r) g Hc Hg) as (g1 & Hg1 & _).
        eauto.
Qed.

Lemma mutation_calls_games_witness :
  List.length
    (Query.games
       (store_after_all
          [call_addGame draw_1 elden_ring;
           call_updateGame "1" (mkEditGameInput (Some "Remastered") None)]
          db))
  = List.length (Query.games db)
    + List.length
        (filter is_addGame
           [call_addGame draw_1 elden_ring;
            call_updateGame "1" (mkEditGameInput (Some "Remastered") None)]).
Proof.
  apply (proj2 (mutation_calls_games
                  [call_addGame draw_1 elden_ring;
                   call_updateGame "1" (mkEditGameInput (Some "Remastered") None)]
                  db)).
  reflexivity.
Defined.

(** ** The rounded product and the exact product *)

Local Open Scope Z_scope.

Lemma floor_round_near_exact (m k : Z) :
  0 < m < 2 ^ 53 -> 0 < k <= 1074 -> m < 2 ^ k ->
  m * 10000 / 2 ^ k <= Math.floor (Number.round (m * 10000) (- k))
  <= m * 10000 / 2 ^ k + 1.
Proof.
  intros Hm Hk Hmk.
  set (P := m * 10000).
  assert (HP : 0 < P) by (unfold P; lia).
  pose proof (Z.log2_spec P HP) as Hlog.
  assert (Hlog67 : Z.log2 P < 67).
  { apply Z.log2_lt_pow2; [assumption|].
    change (2 ^ 67) with (16384 * 2 ^ 53). unfold P. lia. }
  assert (Hk0 : 0 < 2 ^ k) by (apply Z.pow_pos_nonneg; lia).
  unfold Number.round.
  replace (Z.max 0 (Z.max (Z.log2 P - 52) (-1074 - - k)))
    with (Z.max 0 (Z.log2 P - 52)) by lia.
  destruct (Z.eqb_spec (Z.max 0 (Z.log2 P - 52)) 0) as [Hs|Hs].
  - unfold Math.floor; cbn [Number.mant Number.expo].
    destruct (Z.leb_spec 0 (- k)); [lia|].
    rewrite Z.opp_involutive. lia.
  - assert (Hs1 : 1 <= Z.log2 P - 52 <= 14) by lia.
    replace (Z.max 0 (Z.log2 P - 52)) with (Z.log2 P - 52) by lia.
    clear Hs. set (s := Z.log2 P - 52) in *.
    assert (Hks : s < k).
    { assert (H : 2 ^ (s + 52) < 2 ^ (k + 14)).
      { replace (s + 52) with (Z.log2 P) by (unfold s; lia).
        rewrite (Z.pow_add_r 2 k 14) by lia.
        change (2 ^ 14) with 16384. unfold P in *. lia. }
      apply Z.pow_lt_mono_r_iff in H; lia. }
    set (B := 2 ^ s). set (X := 2 ^ (k - s)).
    assert (HB0 : 0 < B) by (apply Z.pow_pos_nonneg; lia).
    assert (HX : 0 < X) by (apply Z.pow_pos_nonneg; lia).
    assert (HkX : 2 ^ k = B * X).
    { unfold X, B. rewrite <- Z.pow_add_r by lia. f_equal. lia. }
    rewrite HkX, <- Z.div_div by lia.
    assert (Hq0 : 0 <= P / B) by (apply Z.div_pos; lia).
    unfold Math.floor; cbn [Number.mant Number.expo].
    destruct (Z.leb_spec 0 (- k + s)); [lia|].
    replace (- (- k + s)) with (k - s) by lia. fold X.
    assert (Hstep : (P / B + 1) / X <= P / B / X + 1).
    { replace (P / B / X + 1) with ((P / B + 1 * X) / X)
        by (rewrite Z.div_add by lia; reflexivity).
      apply Z.div_le_mono; lia. }
    destruct ((2 ^ (s - 1) <? P mod B)
              || ((P mod B =? 2 ^ (s - 1)) && Z.odd (P / B)))%bool.
    + split; [apply Z.div_le_mono; lia|exact Hstep].
    + lia.
Qed.

(** X17. The rounding of the product [random * 10000] to a double moves
    its floor by at most one, and only upwards: the number that [addGame]
    turns into the identifier is the floor of the exact product of the
    draw and 10000, or that floor plus one. *)
Theorem floor_rounded_product (random : Number.double) :
  Math.random_range random = true ->
  let exact :=
    Math.floor (Number.mkDouble (Number.mant random * 10000)
                                (Number.expo random)) in
  exact <= Math.floor (Number.mul random (Number.literal 10000))
  <= exact + 1.
Proof.
  unfold Math.random_range, Number.finite_nonneg, Number.below_one, Number.mul.
  destruct random as [m e]; cbn [Number.mant Number.expo Number.literal].
  intros H. apply andb_true_iff in H as [Hfin Hlt].
  repeat (apply andb_true_iff in Hfin as [Hfin ?]).
  apply Z.leb_le in Hfin.
  repeat match goal with
         | H : (_ <? _) = true |- _ => apply Z.ltb_lt in H
         | H : (_ <=? _) = true |- _ => apply Z.leb_le in H
         end.
  rewrite Z.add_0_r. cbv zeta.
  destruct (Z.eqb_spec m 0) as [->|Hm0].
  - change (0 * 10000) with 0. rewrite floor_round_zero by lia.
    unfold Math.floor; cbn [Number.mant Number.expo].
    destruct (0 <=? e); [rewrite Z.mul_0_l|rewrite Zdiv_0_l]; lia.
  - cbn [orb] in Hlt. apply andb_true_iff in Hlt as [He Hm].
    apply Z.ltb_lt in He, Hm.
    assert (Hex : Math.floor (Number.mkDouble (m * 10000) e)
                  = m * 10000 / 2 ^ (- e)).
    { unfold Math.floor; cbn [Number.mant Number.expo].
      destruct (Z.leb_spec 0 e); [lia|reflexivity]. }
    rewrite Hex.
    replace (Number.round (m * 10000) e)
      with (Number.round (m * 10000) (- (- e))) by (f_equal; lia).
    apply floor_round_near_exact; lia.
Qed.

Lemma floor_rounded_product_witness :
  Math.random_range (Number.mkDouble 6456360425798343 (-63)) = true /\
  (6 <= Math.floor (Number.mul (Number.mkDouble 6456360425798343 (-63))
                               (Number.literal 10000)) <= 6 + 1).
Proof.
  split; [reflexivity|].
  exact (floor_rounded_product (Number.mkDouble 6456360425798343 (-63))
           eq_refl).
Defined.

(** The upper case occurs: the double nearest to 0.0007 lies below 7/10000,
    and its product with 10000 rounds to 7. *)
Example floor_rounded_above_exact :
  Math.floor (Number.mkDouble (6456360425798343 * 10000) (-63)) = 6 /\
  Math.floor (Number.mul (Number.mkDouble 6456360425798343 (-63))
                         (Number.literal 10000)) = 7.
Proof. split; vm_compute; reflexivity. Qed.

Local Close Scope Z_scope.
